(** * Quantum metric learning: embedding, swap test, cost and classifier

    A shallow embedding of the numerical core of
    [tutorial_embedding_generalization_antbee_pca.ipynb]:
    the QAOA feature map, the swap-test overlap, the Hilbert-Schmidt cost,
    the KNN-style [predict] function and the derived metrics.

    Numbers are exact reals ([R]), so the rounding of the float64
    arithmetic is outside the model; a Python exception is a value of
    [exn] carried by the [result] monad; the random generator is an
    explicit stream of raw draws threaded through [predict]. *)

From Stdlib Require Import Reals Lra Lia List ZArith Bool Arith.
Import ListNotations.
Local Open Scope R_scope.

(* ================================================================== *)
(** ** Python exceptions and the error monad *)

Inductive exn : Set :=
| ZeroDivisionError
| IndexError
| ValueError
| WireError.

Inductive result (A : Type) : Type :=
| Ok (a : A)
| Raise (e : exn).

Arguments Ok {A} a.
Arguments Raise {A} e.

Definition bind {A B : Type} (m : result A) (k : A -> result B) : result B :=
  match m with
  | Ok a => k a
  | Raise e => Raise e
  end.

Notation "x <- m ;; k" := (bind m (fun x => k))
  (at level 61, m at next level, right associativity).

Fixpoint mapM {A B : Type} (f : A -> result B) (l : list A) : result (list B) :=
  match l with
  | [] => Ok []
  | a :: t => b <- f a ;; bs <- mapM f t ;; Ok (b :: bs)
  end.

(** A [for] loop with an accumulator whose body may raise. *)
Fixpoint foldM {A S : Type} (f : S -> A -> result S) (l : list A) (s : S)
  : result S :=
  match l with
  | [] => Ok s
  | a :: t => s' <- f s a ;; foldM f t s'
  end.

(** A loop whose body emits a block of operations; the blocks are queued
    in order. *)
Fixpoint emit_each {A B : Type} (f : A -> result (list B)) (l : list A)
  : result (list B) :=
  match l with
  | [] => Ok []
  | a :: t => b <- f a ;; bs <- emit_each f t ;; Ok (b ++ bs)
  end.

(* ================================================================== *)
(** ** Arrays *)

Definition vector : Type := list R.
Definition matrix : Type := list (list R).

(** [l[i]] for a non-negative index. *)
Definition getitem {A : Type} (l : list A) (i : nat) : result A :=
  match nth_error l i with
  | Some a => Ok a
  | None => Raise IndexError
  end.

(** [m[i, j]]. *)
Definition getitem2 (m : matrix) (i j : nat) : result R :=
  row <- getitem m i ;; getitem row j.

(** [l[i]] for a Python integer: negative indices count from the end. *)
Definition py_index {A : Type} (l : list A) (i : Z) : result A :=
  if (0 <=? i)%Z then getitem l (Z.to_nat i)
  else if (- Z.of_nat (length l) <=? i)%Z
       then getitem l (Z.to_nat (Z.of_nat (length l) + i))
       else Raise IndexError.

Definition enumerate {A : Type} (l : list A) : list (nat * A) :=
  combine (seq 0 (length l)) l.

(** [range(lo, hi)] on Python integers. *)
Definition zrange (lo hi : Z) : list Z :=
  map (fun k => (lo + Z.of_nat k)%Z) (seq 0 (Z.to_nat (hi - lo))).

Definition Rsum (l : list R) : R := fold_right Rplus 0 l.

Definition dot (u v : vector) : R :=
  Rsum (map (fun p => fst p * snd p) (combine u v)).

(** [M @ x] for a 2-D array [M] and a 1-D array [x]: the inner dimensions
    must agree. *)
Definition matvec (M : matrix) (x : vector) : result vector :=
  mapM (fun row => if Nat.eqb (length row) (length x)
                   then Ok (dot row x) else Raise ValueError) M.

(* ================================================================== *)
(** ** Circuit operations *)

Inductive op : Type :=
| RX (theta : R) (w : nat)
| RY (theta : R) (w : nat)
| RZ (theta : R) (w : nat)
| CNOT (c t : nat)
| Hadamard (w : nat)
| CSWAP (c a b : nat).

(** A two-wire operation is refused when its wires coincide. *)
Definition mk_CNOT (c t : nat) : result op :=
  if Nat.eqb c t then Raise WireError else Ok (CNOT c t).

Definition mk_CSWAP (c a b : nat) : result op :=
  if Nat.eqb c a || Nat.eqb c b || Nat.eqb a b
  then Raise WireError else Ok (CSWAP c a b).

(* ================================================================== *)
(** ** The quantum feature map *)

Definition feature_encoding_hamiltonian (features : vector) (wires : list nat)
  : result (list op) :=
  mapM (fun iw => f <- getitem features (fst iw) ;; Ok (RX f (snd iw)))
       (enumerate wires).

Definition ising_hamiltonian (weights : matrix) (wires : list nat) (l : nat)
  : result (list op) :=
  (* ZZ coupling *)
  w1 <- getitem wires 1 ;;
  w0 <- getitem wires 0 ;;
  cx1 <- mk_CNOT w1 w0 ;;
  j <- getitem2 weights l 0 ;;
  cx2 <- mk_CNOT w1 w0 ;;
  (* local fields *)
  fields <- mapM (fun iw => h <- getitem2 weights l (fst iw + 1) ;;
                            Ok (RY h (snd iw)))
                 (enumerate wires) ;;
  Ok ([cx1; RZ j w0; cx2] ++ fields).

Definition QAOAEmbedding (features : vector) (weights : matrix)
  (wires : list nat) : result (list op) :=
  let repeat := length weights in
  layers <- emit_each
              (fun l =>
                 (* apply alternating Hamiltonians *)
                 enc <- feature_encoding_hamiltonian features wires ;;
                 ising <- ising_hamiltonian weights wires l ;;
                 Ok (enc ++ ising))
              (seq 0 repeat) ;;
  (* repeat the feature encoding once more at the end *)
  final <- feature_encoding_hamiltonian features wires ;;
  Ok (layers ++ final).

(* ================================================================== *)
(** ** State-vector simulation

    The device is PennyLane's [default.qubit]; its gates act on a state
    vector by the matrices of the PennyLane documentation.  A state maps a
    computational basis word (one bit per wire, wire [0] first) to its
    complex amplitude. *)

Definition C : Type := (R * R)%type.

Definition C0 : C := (0, 0).
Definition C1 : C := (1, 0).
Definition Cadd (z w : C) : C := (fst z + fst w, snd z + snd w).
Definition Cmul (z w : C) : C :=
  (fst z * fst w - snd z * snd w, fst z * snd w + snd z * fst w).
Definition Cconj (z : C) : C := (fst z, - snd z).
Definition Cscale (r : R) (z : C) : C := (r * fst z, r * snd z).
Definition Cnorm2 (z : C) : R := fst z * fst z + snd z * snd z.

Definition state : Type := list bool -> C.

Definition get_bit (x : list bool) (w : nat) : bool := nth w x false.

Fixpoint set_bit (x : list bool) (w : nat) (b : bool) : list bool :=
  match x, w with
  | [], _ => []
  | _ :: t, O => b :: t
  | h :: t, S w' => h :: set_bit t w' b
  end.

(** Gate matrices, indexed by row and column bit. *)
Definition RX_matrix (theta : R) (r c : bool) : C :=
  if Bool.eqb r c then (cos (theta / 2), 0) else (0, - sin (theta / 2)).

Definition RY_matrix (theta : R) (r c : bool) : C :=
  match r, c with
  | false, false => (cos (theta / 2), 0)
  | false, true => (- sin (theta / 2), 0)
  | true, false => (sin (theta / 2), 0)
  | true, true => (cos (theta / 2), 0)
  end.

Definition RZ_matrix (theta : R) (r c : bool) : C :=
  match r, c with
  | false, false => (cos (theta / 2), - sin (theta / 2))
  | true, true => (cos (theta / 2), sin (theta / 2))
  | _, _ => C0
  end.

Definition H_matrix (r c : bool) : C :=
  if r && c then (- / sqrt 2, 0) else (/ sqrt 2, 0).

Definition apply1 (U : bool -> bool -> C) (w : nat) (psi : state) : state :=
  fun x =>
    Cadd (Cmul (U (get_bit x w) false) (psi (set_bit x w false)))
         (Cmul (U (get_bit x w) true) (psi (set_bit x w true))).

Definition apply_op (o : op) (psi : state) : state :=
  match o with
  | RX theta w => apply1 (RX_matrix theta) w psi
  | RY theta w => apply1 (RY_matrix theta) w psi
  | RZ theta w => apply1 (RZ_matrix theta) w psi
  | Hadamard w => apply1 H_matrix w psi
  | CNOT c t =>
      fun x => psi (set_bit x t (xorb (get_bit x t) (get_bit x c)))
  | CSWAP c a b =>
      fun x => if get_bit x c
               then psi (set_bit (set_bit x a (get_bit x b)) b (get_bit x a))
               else psi x
  end.

(** The queued operations are applied in order. *)
Definition run (ops : list op) (psi : state) : state :=
  fold_left (fun s o => apply_op o s) ops psi.

Fixpoint all_basis (n : nat) : list (list bool) :=
  match n with
  | O => [[]]
  | S k => map (cons false) (all_basis k) ++ map (cons true) (all_basis k)
  end.

Fixpoint word_eqb (x y : list bool) : bool :=
  match x, y with
  | [], [] => true
  | a :: x', b :: y' => Bool.eqb a b && word_eqb x' y'
  | _, _ => false
  end.

(** The all-zero initial state of an [n]-wire device. *)
Definition zero_state (n : nat) : state :=
  fun x => if word_eqb x (repeat false n) then C1 else C0.

(** [qml.expval(qml.PauliZ(w))] on an [n]-wire device. *)
Definition expval_PauliZ (n w : nat) (psi : state) : R :=
  Rsum (map (fun x => (if get_bit x w then -1 else 1) * Cnorm2 (psi x))
            (all_basis n)).

(* ================================================================== *)
(** ** SWAP test for overlap measurement *)

Definition n_features : nat := 2.
Definition n_qubits : nat := 2 * n_features + 1.

Definition swap_test_circuit (q_weights : matrix) (x1 x2 : vector)
  : result (list op) :=
  (* load the two inputs into two different registers *)
  e1 <- QAOAEmbedding x1 q_weights [1; 2]%nat ;;
  e2 <- QAOAEmbedding x2 q_weights [3; 4]%nat ;;
  (* perform the SWAP test *)
  swaps <- mapM (fun k => mk_CSWAP 0 (k + 1) (2 + k + 1)) (seq 0 n_features) ;;
  Ok (e1 ++ e2 ++ [Hadamard 0] ++ swaps ++ [Hadamard 0]).

Definition swap_test (q_weights : matrix) (x1 x2 : vector) : result R :=
  circuit <- swap_test_circuit q_weights x1 x2 ;;
  Ok (expval_PauliZ n_qubits 0 (run circuit (zero_state n_qubits))).

(* ================================================================== *)
(** ** Overlaps and cost *)

(** Python's [/]: a zero divisor raises. *)
Definition true_div (r : R) (n : Z) : result R :=
  if (n =? 0)%Z then Raise ZeroDivisionError else Ok (r / IZR n).

(** The body of the double loop of [overlaps]: project both inputs with the
    linear layer and measure the overlap of the embedded intermediate
    features. *)
Definition pair_overlap (weights : matrix * matrix) (x1 x2 : vector)
  : result R :=
  let linear_layer := fst weights in
  let q_weights := snd weights in
  (* multiply the inputs with the linear layer weight matrix *)
  w_x1 <- matvec linear_layer x1 ;;
  w_x2 <- matvec linear_layer x2 ;;
  (* overlap of embedded intermediate features *)
  swap_test q_weights w_x1 w_x2.

Definition overlaps (weights : matrix * matrix) (X1 X2 : list vector)
  : result R :=
  overlap <- foldM (fun acc x1 =>
                      foldM (fun acc' x2 =>
                               v <- pair_overlap weights x1 x2 ;;
                               Ok (acc' + v))
                            X2 acc)
                   X1 0 ;;
  true_div overlap (Z.of_nat (length X1) * Z.of_nat (length X2)).

Definition cost (weights : matrix * matrix) (A B : list vector) : result R :=
  aa <- overlaps weights A A ;;
  bb <- overlaps weights B B ;;
  ab <- overlaps weights A B ;;
  let d_hs := -2 * ab + (aa + bb) in
  Ok (1 - 0.5 * d_hs).

(* ================================================================== *)
(** ** Classification *)

(** The module-level data [predict] reads. *)
Record env : Type := {
  X : list vector;        (* training inputs *)
  Y : list R;             (* training labels *)
  A_val : list vector;    (* validation inputs of class -1 (bees) *)
  B_val : list vector;    (* validation inputs of class 1 (ants) *)
  pars : matrix * matrix  (* trained parameters *)
}.

(** The global generator: a stream of raw draws and the position of the
    next one.  A computation that draws is a function of the position. *)
Definition rand (A : Type) : Type := nat -> result (A * nat).

Definition ret {A : Type} (a : A) : rand A := fun pos => Ok (a, pos).

Definition bindS {A B : Type} (m : rand A) (k : A -> rand B) : rand B :=
  fun pos =>
    match m pos with
    | Ok (a, pos') => k a pos'
    | Raise e => Raise e
    end.

Definition lift {A : Type} (m : result A) : rand A :=
  fun pos =>
    match m with
    | Ok a => Ok (a, pos)
    | Raise e => Raise e
    end.

Notation "x <~ m ;; k" := (bindS m (fun x => k))
  (at level 61, m at next level, right associativity).

Fixpoint foldS {A S : Type} (f : S -> A -> rand S) (l : list A) (s : S)
  : rand S :=
  match l with
  | [] => ret s
  | a :: t => s' <~ f s a ;; foldS f t s'
  end.

(** [np.random.choice(n)]: an index below [n]; an empty population is
    refused. *)
Definition random_choice (gen : nat -> nat) (n : nat) : rand nat :=
  fun pos =>
    if Nat.eqb n 0 then Raise ValueError
    else Ok (Nat.modulo (gen pos) n, S pos).

Definition tally : Type := (Z * Z * Z * Z)%type.

Definition truepos (t : tally) : Z := fst (fst (fst t)).
Definition falseneg (t : tally) : Z := snd (fst (fst t)).
Definition falsepos (t : tally) : Z := snd (fst t).
Definition trueneg (t : tally) : Z := snd t.

Inductive species : Set := Bee | Ant.

(** The inner loop of [predict] and its normalisation: the prediction
    score of one new input. *)
Definition prediction_score (e : env) (gen : nat -> nat) (n_samples : Z)
  (x_new : vector) : rand R :=
  prediction <~ foldS (fun prediction (_ : Z) =>
                         (* select a random sample from the training set *)
                         sample_index <~ random_choice gen (length (X e)) ;;
                         x <~ lift (getitem (X e) sample_index) ;;
                         y <~ lift (getitem (Y e) sample_index) ;;
                         (* compute the overlap between training sample and
                            new input *)
                         overlap <~ lift (overlaps (pars e) [x] [x_new]) ;;
                         (* add the label weighed by the overlap to the
                            prediction *)
                         ret (prediction + y * overlap))
                      (zrange 0 n_samples) 0 ;;
  (* normalize prediction *)
  lift (true_div prediction n_samples).

(** The sign function of the KNN-style method: the value of [pred]. *)
Definition pred_of (prediction : R) : species :=
  if Rlt_dec prediction 0 then Bee else Ant.

(** The confusion-matrix update of one query. *)
Definition count_query (choice : Z) (prediction : R) (t : tally) : tally :=
  let '(tp, fn, fp, tn) := t in
  match pred_of prediction with
  | Bee =>
      if (choice =? 0)%Z then ((tp + 1)%Z, fn, fp, tn)
      else (tp, fn, (fp + 1)%Z, tn)
  | Ant =>
      if (choice =? 0)%Z then (tp, (fn + 1)%Z, fp, tn)
      else (tp, fn, fp, (tn + 1)%Z)
  end.

Definition predict (e : env) (gen : nat -> nat)
  (n_samples pred_low pred_high choice : Z) : rand tally :=
  foldS (fun t i =>
           x_new <~ lift (if (choice =? 0)%Z
                          then py_index (A_val e) i    (* Bee *)
                          else py_index (B_val e) i) ;; (* Ant *)
           prediction <~ prediction_score e gen n_samples x_new ;;
           ret (count_query choice prediction t))
        (zrange pred_low pred_high) (0, 0, 0, 0)%Z.

(* ================================================================== *)
(** ** Derived metrics *)

(** [a / b] on Python integers. *)
Definition int_div (a b : Z) : result R :=
  if (b =? 0)%Z then Raise ZeroDivisionError else Ok (IZR a / IZR b).

(** [a / b] on Python floats. *)
Definition float_div (a b : R) : result R :=
  if Req_dec_T b 0 then Raise ZeroDivisionError else Ok (a / b).

Definition add_tally (s t : tally) : tally :=
  ((truepos s + truepos t)%Z, (falseneg s + falseneg t)%Z,
   (falsepos s + falsepos t)%Z, (trueneg s + trueneg t)%Z).

Record metrics : Type := {
  precision : R;
  recall : R;
  accuracy : R;
  specificity : R;
  f1 : R
}.

(** The script's computation of the metrics from [totals]. *)
Definition derived_metrics (totals : tally) : result metrics :=
  let t0 := truepos totals in
  let t1 := falseneg totals in
  let t2 := falsepos totals in
  let t3 := trueneg totals in
  precision <- int_div t0 (t0 + t2) ;;
  recall <- int_div t0 (t0 + t1) ;;
  accuracy <- int_div (t0 + t3) (t0 + t1 + t2 + t3) ;;
  specificity <- int_div t3 (t3 + t2) ;;
  f1 <- float_div (2 * precision * recall) (precision + recall) ;;
  Ok {| precision := precision; recall := recall; accuracy := accuracy;
        specificity := specificity; f1 := f1 |}.

(* ================================================================== *)
(** ** Closed forms used by the properties *)

(** The feature-encoding rotation layer on the wire pair [(p, r)]. *)
Definition encoding_ops (f0 f1 : R) (p r : nat) : list op :=
  [RX f0 p; RX f1 r].

(** The entangling/local-field layer on the wire pair [(p, r)]: the ZZ
    coupling with the layer's first weight, then the local fields with the
    next two. *)
Definition ising_ops (row : R * R * R) (p r : nat) : list op :=
  let '(j, h0, h1) := row in
  [CNOT r p; RZ j p; CNOT r p; RY h0 p; RY h1 r].

Definition embedding_ops (f0 f1 : R) (rows : list (R * R * R)) (p r : nat)
  : list op :=
  flat_map (fun row => encoding_ops f0 f1 p r ++ ising_ops row p r) rows
  ++ encoding_ops f0 f1 p r.

(** The two feature values a wire pair reads. *)
Definition features2 (features : vector) : option (R * R) :=
  match features with
  | f0 :: f1 :: _ => Some (f0, f1)
  | _ => None
  end.

(** The three weights of a layer a wire pair reads. *)
Definition row3 (row : list R) : option (R * R * R) :=
  match row with
  | j :: h0 :: h1 :: _ => Some (j, h0, h1)
  | _ => None
  end.

Fixpoint rows3 (weights : matrix) : option (list (R * R * R)) :=
  match weights with
  | [] => Some []
  | row :: rest =>
      match row3 row, rows3 rest with
      | Some t, Some ts => Some (t :: ts)
      | _, _ => None
      end
  end.

Definition is_RX (o : op) : bool := match o with RX _ _ => true | _ => false end.
Definition is_RY (o : op) : bool := match o with RY _ _ => true | _ => false end.
Definition is_RZ (o : op) : bool := match o with RZ _ _ => true | _ => false end.
Definition is_CNOT (o : op) : bool := match o with CNOT _ _ => true | _ => false end.

Definition count_ops (f : op -> bool) (ops : list op) : nat :=
  length (filter f ops).

(** Relabelling of wires: every wire of an operation moved up by [s]. *)
Definition shift_op (s : nat) (o : op) : op :=
  match o with
  | RX theta w => RX theta (s + w)
  | RY theta w => RY theta (s + w)
  | RZ theta w => RZ theta (s + w)
  | CNOT c t => CNOT (s + c) (s + t)
  | Hadamard w => Hadamard (s + w)
  | CSWAP c a b => CSWAP (s + c) (s + a) (s + b)
  end.

(** All wires of an operation lie below [k]. *)
Definition op_within (k : nat) (o : op) : Prop :=
  match o with
  | RX _ w | RY _ w | RZ _ w | Hadamard w => (w < k)%nat
  | CNOT c t => (c < k)%nat /\ (t < k)%nat
  | CSWAP c a b => (c < k)%nat /\ (a < k)%nat /\ (b < k)%nat
  end.

(** The gates of the feature map on a two-wire register. *)
Definition embedding_gate (o : op) : Prop :=
  match o with
  | RX _ w | RY _ w | RZ _ w => (w < 2)%nat
  | CNOT c t => (c < 2)%nat /\ (t < 2)%nat /\ c <> t
  | _ => False
  end.

(** Squared norm and inner product of states of a [n]-wire register. *)
Definition norm2 (n : nat) (psi : state) : R :=
  Rsum (map (fun x => Cnorm2 (psi x)) (all_basis n)).

Definition inner (n : nat) (phi psi : state) : C :=
  fold_right Cadd C0 (map (fun x => Cmul (Cconj (phi x)) (psi x)) (all_basis n)).

(** The state a feature pair is embedded into, on a register of its own. *)
Definition embedded_state (f0 f1 : R) (rows : list (R * R * R)) : state :=
  run (embedding_ops f0 f1 rows 0 1) (zero_state 2).

(** The swap-test part of the circuit. *)
Definition swap_ops : list op :=
  [Hadamard 0; CSWAP 0 1 3; CSWAP 0 2 4; Hadamard 0].

(** The value the swap test returns for two intermediate feature pairs:
    the squared modulus of the inner product of their embedded states. *)
Definition overlap_value (a b : R * R) (rows : list (R * R * R)) : R :=
  Cnorm2 (inner 2 (embedded_state (fst a) (snd a) rows)
                  (embedded_state (fst b) (snd b) rows)).

(** The shapes of the data model: a projection matrix with two rows as
    wide as the input, and [n_features + 1] weights per layer. *)
Definition well_shaped (weights : matrix * matrix) (x : vector) : Prop :=
  length (fst weights) = 2%nat /\
  Forall (fun row => length row = length x) (fst weights) /\
  Forall (fun row => length row = (n_features + 1)%nat) (snd weights).

(** The arithmetic mean of [ov] over every ordered pair of [X1] and [X2]. *)
Definition mean_over_pairs (ov : vector -> vector -> R) (X1 X2 : list vector)
  : R :=
  Rsum (map (fun p => ov (fst p) (snd p)) (list_prod X1 X2))
  / INR (length X1 * length X2).

(** The value a successful pair query returns, [0] when it raises. *)
Definition value_of (m : result R) : R :=
  match m with
  | Ok v => v
  | Raise _ => 0
  end.

(** Sample inputs with the shapes of the notebook: a [(2, 4)] projection,
    [(4, 3)] ansatz weights and inputs of four features. *)
Definition demo_pars : matrix * matrix :=
  ([[1; 0; 2; 0]; [0; 1; 0; 2]],
   [[1; 2; 3]; [0; 1; 0]; [2; 0; 1]; [1; 1; 1]]).

Definition demo_x : vector := [1; 2; 3; 4].

(** The operation sequence of the ansatz, layer by layer. *)
Definition encoding_layer (features : vector) (p r : nat) : list op :=
  [RX (nth 0 features 0) p; RX (nth 1 features 0) r].

Definition coupling (j : R) (p r : nat) : list op :=
  [CNOT r p; RZ j p; CNOT r p].

Definition local_fields (row : list R) (p r : nat) : list op :=
  [RY (nth 1 row 0) p; RY (nth 2 row 0) r].

Definition ansatz_sequence (features : vector) (weights : matrix) (p r : nat)
  : list op :=
  flat_map (fun row => encoding_layer features p r
                       ++ coupling (nth 0 row 0) p r
                       ++ local_fields row p r) weights
  ++ encoding_layer features p r.

(** The training index of the draw made at generator position [k]. *)
Definition drawn_index (e : env) (gen : nat -> nat) (k : nat) : nat :=
  Nat.modulo (gen k) (length (X e)).

(** The prediction score in the words of the specification: [1 / n_samples]
    times the sum, over the [n_samples] draws made from position [pos] on,
    of the label of the drawn sample times its overlap [ov k] with the
    query. *)
Definition score_of_draws (e : env) (gen : nat -> nat) (pos : nat)
  (n_samples : Z) (ov : nat -> R) : R :=
  1 / IZR n_samples
  * Rsum (map (fun k => nth (drawn_index e gen k) (Y e) 0 * ov k)
              (seq pos (Z.to_nat n_samples))).

(** A one-sample training pool and validation set. *)
Definition demo_env : env :=
  {| X := [demo_x]; Y := [-1]; A_val := [demo_x]; B_val := [demo_x];
     pars := demo_pars |}.

(** The phase the ZZ coupling of angle [j] gives a basis word whose two
    coupled bits have parity [b]. *)
Definition zz_phase (j : R) (b : bool) : C :=
  if b then (cos (j / 2), sin (j / 2)) else (cos (j / 2), - sin (j / 2)).

(** Every input of a list has the width the projection expects. *)
Definition inputs_shaped (weights : matrix * matrix) (l : list vector) : Prop :=
  Forall (well_shaped weights) l.

(** A second sample input. *)
Definition demo_y : vector := [4; 3; 2; 1].

(* ================================================================== *)
(** * Properties *)

(** ** The error monad *)

Lemma bind_Ok {A B : Type} (m : result A) (k : A -> result B) (b : B) :
  bind m k = Ok b -> exists a, m = Ok a /\ k a = Ok b.
Proof.
  destruct m as [a|e]; simpl; intros H; [exists a; auto | discriminate].
Qed.

(** ** The feature map *)

Lemma feature_encoding_pair (f : vector) (p r : nat) :
  feature_encoding_hamiltonian f [p; r] =
  match features2 f with
  | Some (f0, f1) => Ok (encoding_ops f0 f1 p r)
  | None => Raise IndexError
  end.
Proof.
  destruct f as [|f0 [|f1 t]]; reflexivity.
Qed.

Lemma ising_pair (q : matrix) (p r l : nat) :
  p <> r ->
  ising_hamiltonian q [p; r] l =
  match nth_error q l with
  | Some row =>
      match row3 row with
      | Some t => Ok (ising_ops t p r)
      | None => Raise IndexError
      end
  | None => Raise IndexError
  end.
Proof.
  intros Hpr.
  unfold ising_hamiltonian, mk_CNOT, getitem2, getitem; simpl.
  assert (E : Nat.eqb r p = false) by (apply Nat.eqb_neq; congruence).
  rewrite E; simpl.
  destruct (nth_error q l) as [row|]; simpl; [|reflexivity].
  destruct row as [|j [|h0 [|h1 t]]]; reflexivity.
Qed.

Lemma layers_loop (f : vector) (f0 f1 : R) (p r : nat) :
  features2 f = Some (f0, f1) -> p <> r ->
  forall (q pre : matrix),
    emit_each
      (fun l =>
         enc <- feature_encoding_hamiltonian f [p; r] ;;
         ising <- ising_hamiltonian (pre ++ q) [p; r] l ;;
         Ok (enc ++ ising))
      (seq (length pre) (length q)) =
    match rows3 q with
    | Some rows =>
        Ok (flat_map (fun row => encoding_ops f0 f1 p r ++ ising_ops row p r)
                     rows)
    | None => Raise IndexError
    end.
Proof.
  intros Hf Hpr q.
  induction q as [|row q IH]; intros pre; [reflexivity|].
  cbn [length seq emit_each].
  rewrite feature_encoding_pair, Hf.
  rewrite (ising_pair _ _ _ _ Hpr).
  rewrite nth_error_app2 by lia.
  rewrite Nat.sub_diag. cbn [nth_error bind].
  specialize (IH (pre ++ [row])).
  rewrite <- app_assoc in IH. cbn [app] in IH.
  rewrite length_app in IH. cbn [length] in IH.
  rewrite Nat.add_1_r in IH.
  rewrite feature_encoding_pair, Hf in IH. cbn [bind] in IH.
  cbn [rows3].
  destruct (row3 row) as [t|]; cbn [bind]; [|reflexivity].
  rewrite IH.
  destruct (rows3 q) as [rows|]; reflexivity.
Qed.

(** On a pair of distinct wires the embedding succeeds exactly when the
    two features and three weights per layer it reads exist, and then it
    queues [embedding_ops]. *)
Lemma QAOAEmbedding_pair (f : vector) (q : matrix) (p r : nat) :
  p <> r ->
  QAOAEmbedding f q [p; r] =
  match features2 f, rows3 q with
  | Some (f0, f1), Some rows => Ok (embedding_ops f0 f1 rows p r)
  | _, _ => Raise IndexError
  end.
Proof.
  intros Hpr. unfold QAOAEmbedding.
  destruct (features2 f) as [[f0 f1]|] eqn:Hf.
  - pose proof (layers_loop f f0 f1 p r Hf Hpr q []) as HL.
    cbn [app length] in HL. rewrite HL.
    destruct (rows3 q) as [rows|]; cbn [bind]; [|reflexivity].
    rewrite feature_encoding_pair, Hf. reflexivity.
  - destruct q as [|row q].
    + cbn [length seq emit_each bind].
      rewrite feature_encoding_pair, Hf. reflexivity.
    + cbn [length seq emit_each].
      rewrite feature_encoding_pair, Hf. reflexivity.
Qed.

(** ** Basis words *)

Lemma set_bit_length (x : list bool) (w : nat) (b : bool) :
  length (set_bit x w b) = length x.
Proof.
  revert w; induction x as [|h t IH]; intros [|w]; simpl; auto.
Qed.

Lemma get_bit_prefix (pre y : list bool) (w : nat) :
  get_bit (pre ++ y) (length pre + w) = get_bit y w.
Proof.
  unfold get_bit. induction pre as [|h t IH]; simpl; auto.
Qed.

Lemma set_bit_prefix (pre y : list bool) (w : nat) (b : bool) :
  set_bit (pre ++ y) (length pre + w) b = pre ++ set_bit y w b.
Proof.
  induction pre as [|h t IH]; simpl; [reflexivity | now rewrite IH].
Qed.

Lemma get_bit_suffix (y post : list bool) (w : nat) :
  (w < length y)%nat -> get_bit (y ++ post) w = get_bit y w.
Proof.
  unfold get_bit. intros H. now rewrite app_nth1.
Qed.

Lemma set_bit_suffix (y post : list bool) (w : nat) (b : bool) :
  (w < length y)%nat -> set_bit (y ++ post) w b = set_bit y w b ++ post.
Proof.
  revert w; induction y as [|h t IH]; intros w H; simpl in *; [lia|].
  destruct w as [|w]; simpl; [reflexivity|].
  rewrite IH by lia. reflexivity.
Qed.

Lemma get_bit_middle (pre y post : list bool) (w : nat) :
  (w < length y)%nat ->
  get_bit (pre ++ y ++ post) (length pre + w) = get_bit y w.
Proof.
  intros H. rewrite get_bit_prefix. now apply get_bit_suffix.
Qed.

Lemma set_bit_middle (pre y post : list bool) (w : nat) (b : bool) :
  (w < length y)%nat ->
  set_bit (pre ++ y ++ post) (length pre + w) b = pre ++ set_bit y w b ++ post.
Proof.
  intros H. rewrite set_bit_prefix. now rewrite set_bit_suffix.
Qed.

(** ** Running a circuit *)

Lemma run_cons (o : op) (ops : list op) (psi : state) :
  run (o :: ops) psi = run ops (apply_op o psi).
Proof. reflexivity. Qed.

Lemma run_app (ops1 ops2 : list op) (psi : state) :
  run (ops1 ++ ops2) psi = run ops2 (run ops1 psi).
Proof. unfold run. apply fold_left_app. Qed.

(** An operation reads the state only at words of the same length. *)
Lemma apply_op_congr (n : nat) (o : op) (phi phi' : state) :
  (forall y, length y = n -> phi y = phi' y) ->
  forall y, length y = n -> apply_op o phi y = apply_op o phi' y.
Proof.
  intros H y Hy.
  destruct o; simpl; unfold apply1;
    rewrite ?H by (rewrite ?set_bit_length; exact Hy); try reflexivity.
Qed.

Lemma run_congr (n : nat) (ops : list op) :
  forall phi phi' : state,
    (forall y, length y = n -> phi y = phi' y) ->
    forall y, length y = n -> run ops phi y = run ops phi' y.
Proof.
  induction ops as [|o ops IH]; intros phi phi' H y Hy.
  - now apply H.
  - rewrite !run_cons. apply IH; [|exact Hy].
    intros y' Hy'. now apply (apply_op_congr n).
Qed.

(** Locality: an operation on the wires of a sub-register acts on the
    sub-register alone. *)
Lemma apply_op_lift (pre post y : list bool) (o : op) (psi : state) :
  op_within (length y) o ->
  apply_op (shift_op (length pre) o) psi (pre ++ y ++ post) =
  apply_op o (fun y' => psi (pre ++ y' ++ post)) y.
Proof.
  intros H.
  destruct o; simpl in *; unfold apply1;
    try (rewrite !get_bit_middle, !set_bit_middle by lia; reflexivity).
  destruct H as [Hc [Ha Hb]].
  rewrite !get_bit_middle by lia.
  destruct (get_bit y c); [|reflexivity].
  rewrite set_bit_middle by lia.
  rewrite set_bit_middle by (rewrite set_bit_length; lia).
  reflexivity.
Qed.

Lemma run_lift (pre post : list bool) (k : nat) (ops : list op) :
  Forall (op_within k) ops ->
  forall (psi : state) (y : list bool),
    length y = k ->
    run (map (shift_op (length pre)) ops) psi (pre ++ y ++ post) =
    run ops (fun y' => psi (pre ++ y' ++ post)) y.
Proof.
  induction 1 as [|o ops Ho Hops IH]; intros psi y Hy; [reflexivity|].
  cbn [map]. rewrite !run_cons, IH by exact Hy.
  apply (run_congr k); [|exact Hy].
  intros y' Hy'. apply apply_op_lift. now rewrite Hy'.
Qed.

(** ** Complex arithmetic *)

Ltac csimpl :=
  unfold Cadd, Cmul, Cconj, Cscale, Cnorm2, C0, C1 in *; cbn [fst snd] in *.

Lemma Cmul_assoc (a b c : C) : Cmul a (Cmul b c) = Cmul (Cmul a b) c.
Proof. destruct a, b, c; csimpl; f_equal; ring. Qed.

Lemma Cmul_comm (a b : C) : Cmul a b = Cmul b a.
Proof. destruct a, b; csimpl; f_equal; ring. Qed.

Lemma Cmul_add_r (a b c : C) : Cmul a (Cadd b c) = Cadd (Cmul a b) (Cmul a c).
Proof. destruct a, b, c; csimpl; f_equal; ring. Qed.

Lemma Cmul_1_l (a : C) : Cmul C1 a = a.
Proof. destruct a; csimpl; f_equal; ring. Qed.

Lemma Cmul_0_l (a : C) : Cmul C0 a = C0.
Proof. destruct a; csimpl; f_equal; ring. Qed.

Lemma Cmul_0_r (a : C) : Cmul a C0 = C0.
Proof. destruct a; csimpl; f_equal; ring. Qed.

Lemma Cnorm2_nonneg (a : C) : 0 <= Cnorm2 a.
Proof. destruct a; csimpl; nra. Qed.

(** Gates are linear. *)
Lemma apply_op_scale (o : op) (k : C) (phi : state) (y : list bool) :
  apply_op o (fun y' => Cmul k (phi y')) y = Cmul k (apply_op o phi y).
Proof.
  destruct o; simpl; unfold apply1; try reflexivity;
    try (rewrite Cmul_add_r, !Cmul_assoc, !(Cmul_comm k); reflexivity).
  destruct (get_bit y c); reflexivity.
Qed.

Lemma run_scale (ops : list op) (k : C) :
  forall (phi : state) (y : list bool),
    run ops (fun y' => Cmul k (phi y')) y = Cmul k (run ops phi y).
Proof.
  induction ops as [|o ops IH]; intros phi y; [reflexivity|].
  rewrite !run_cons, <- IH.
  apply (run_congr (length y)); [|reflexivity].
  intros y' _. apply apply_op_scale.
Qed.

(** ** The embedding on a register of its own *)

Lemma embedding_ops_shift (s : nat) (f0 f1 : R) (rows : list (R * R * R))
  (p r : nat) :
  map (shift_op s) (embedding_ops f0 f1 rows p r) =
  embedding_ops f0 f1 rows (s + p) (s + r).
Proof.
  unfold embedding_ops. rewrite map_app. f_equal.
  induction rows as [|[[j h0] h1] rows IH]; [reflexivity|].
  cbn [flat_map]. rewrite map_app, IH. reflexivity.
Qed.

Lemma embedding_ops_gates (f0 f1 : R) (rows : list (R * R * R)) :
  Forall embedding_gate (embedding_ops f0 f1 rows 0 1).
Proof.
  unfold embedding_ops. apply Forall_app. split.
  - induction rows as [|[[j h0] h1] rows IH]; [constructor|].
    cbn [flat_map]. apply Forall_app. split; [|exact IH].
    repeat constructor; simpl; lia.
  - repeat constructor; simpl; lia.
Qed.

Lemma embedding_gate_within (o : op) : embedding_gate o -> op_within 2 o.
Proof. destruct o; simpl; tauto. Qed.

Lemma embedding_ops_within (f0 f1 : R) (rows : list (R * R * R)) :
  Forall (op_within 2) (embedding_ops f0 f1 rows 0 1).
Proof.
  eapply Forall_impl; [|apply embedding_ops_gates].
  apply embedding_gate_within.
Qed.

Lemma zero_state_split (a d e : bool) (y : list bool) :
  length y = 2%nat ->
  zero_state 5 ([a] ++ y ++ [d; e]) =
  Cmul (if a || d || e then C0 else C1) (zero_state 2 y).
Proof.
  destruct y as [|b [|c [|? ?]]]; try discriminate. intros _.
  destruct a, b, c, d, e; unfold zero_state; simpl;
    csimpl; f_equal; ring.
Qed.

(** After both embeddings the device holds the product of the two embedded
    states, with the ancilla still in [0]. *)
Lemma embedded_pair_state (a0 a1 b0 b1 : R) (rows : list (R * R * R))
  (a b c d e : bool) :
  run (embedding_ops a0 a1 rows 1 2 ++ embedding_ops b0 b1 rows 3 4)
      (zero_state 5) [a; b; c; d; e] =
  Cmul (if a then C0 else C1)
       (Cmul (embedded_state a0 a1 rows [b; c])
             (embedded_state b0 b1 rows [d; e])).
Proof.
  rewrite run_app.
  change (embedding_ops b0 b1 rows 3 4)
    with (embedding_ops b0 b1 rows (3 + 0) (3 + 1)).
  change (embedding_ops a0 a1 rows 1 2)
    with (embedding_ops a0 a1 rows (1 + 0) (1 + 1)).
  rewrite <- !embedding_ops_shift.
  change [a; b; c; d; e] with ([a; b; c] ++ [d; e] ++ []).
  change 3%nat with (length [a; b; c]).
  rewrite (run_lift [a; b; c] [] 2) by (apply embedding_ops_within || reflexivity).
  set (k := Cmul (if a then C0 else C1) (embedded_state a0 a1 rows [b; c])).
  rewrite (run_congr 2 _ _ (fun y' => Cmul k (zero_state 2 y'))); [| |reflexivity].
  - rewrite run_scale. unfold k, embedded_state.
    now rewrite Cmul_assoc.
  - intros y' Hy'.
    destruct y' as [|d' [|e' [|? ?]]]; try discriminate.
    change ([a; b; c] ++ [d'; e'] ++ []) with ([a] ++ [b; c] ++ [d'; e']).
    change 1%nat with (length [a]).
    rewrite (run_lift [a] [d'; e'] 2) by (apply embedding_ops_within || reflexivity).
    rewrite (run_congr 2 _ _
               (fun y'' => Cmul (if a || d' || e' then C0 else C1)
                                (zero_state 2 y''))); [| |reflexivity].
    + rewrite run_scale. unfold k, embedded_state.
      destruct a, d', e'; unfold zero_state; simpl;
        rewrite ?Cmul_0_l, ?Cmul_1_l, ?Cmul_0_r; try reflexivity;
        rewrite Cmul_comm, Cmul_1_l; reflexivity.
    + intros y'' Hy''. now apply zero_state_split.
Qed.

(** ** The swap test *)

Lemma inv_sqrt2_sqr : / sqrt 2 * / sqrt 2 = / 2.
Proof.
  rewrite <- Rinv_mult. f_equal. apply sqrt_def. lra.
Qed.

Lemma swap_ops_formula (psi : state) (a b c d e : bool) :
  run swap_ops psi [a; b; c; d; e] =
  Cscale (/ 2)
    (Cadd (Cadd (psi [false; b; c; d; e]) (psi [true; b; c; d; e]))
          (Cscale (if a then -1 else 1)
             (Cadd (psi [false; d; e; b; c])
                   (Cscale (-1) (psi [true; d; e; b; c]))))).
Proof.
  unfold swap_ops, run. cbn [fold_left apply_op].
  unfold apply1, get_bit. cbn [nth set_bit].
  unfold H_matrix. cbn [andb].
  destruct (psi [false; b; c; d; e]) as [x1 y1].
  destruct (psi [true; b; c; d; e]) as [x2 y2].
  destruct (psi [false; d; e; b; c]) as [x3 y3].
  destruct (psi [true; d; e; b; c]) as [x4 y4].
  rewrite <- inv_sqrt2_sqr.
  generalize (/ sqrt 2); intros s.
  destruct a; cbn [andb]; csimpl; f_equal; ring.
Qed.

Lemma Rsum_nonneg (l : list R) : Forall (fun r => 0 <= r) l -> 0 <= Rsum l.
Proof.
  induction 1 as [|r l Hr Hl IH]; simpl; lra.
Qed.

Lemma Rsum_norms_nonneg {A : Type} (f : A -> C) (l : list A) :
  0 <= Rsum (map (fun x => Cnorm2 (f x)) l).
Proof.
  apply Rsum_nonneg. apply Forall_map, Forall_forall.
  intros x _. apply Cnorm2_nonneg.
Qed.

(** The expectation of [PauliZ] on wire [0] is the total probability minus
    twice the probability of reading [1] there. *)
Lemma expval_as_probability (phi : state) :
  expval_PauliZ 5 0 phi =
  norm2 5 phi - 2 * Rsum (map (fun x => Cnorm2 (phi (true :: x))) (all_basis 4)).
Proof.
  unfold expval_PauliZ, norm2, get_bit. cbn [all_basis map app nth Rsum fold_right].
  ring.
Qed.

Section SwapTestValue.

Variables (psi alpha beta : state).
Hypothesis product :
  forall a b c d e,
    psi [a; b; c; d; e] =
    Cmul (if a then C0 else C1) (Cmul (alpha [b; c]) (beta [d; e])).

(** The swap test measures the squared modulus of the inner product. *)
Lemma swap_test_inner :
  expval_PauliZ 5 0 (run swap_ops psi) = Cnorm2 (inner 2 alpha beta).
Proof.
  unfold expval_PauliZ, inner, get_bit.
  cbn [all_basis map app nth Rsum fold_right].
  rewrite !swap_ops_formula, !product.
  destruct (alpha [false; false]) as [p1 q1].
  destruct (alpha [false; true]) as [p2 q2].
  destruct (alpha [true; false]) as [p3 q3].
  destruct (alpha [true; true]) as [p4 q4].
  destruct (beta [false; false]) as [u1 v1].
  destruct (beta [false; true]) as [u2 v2].
  destruct (beta [true; false]) as [u3 v3].
  destruct (beta [true; true]) as [u4 v4].
  csimpl. field.
Qed.

Lemma swap_test_total :
  norm2 5 (run swap_ops psi) = norm2 2 alpha * norm2 2 beta.
Proof.
  unfold norm2.
  cbn [all_basis map app Rsum fold_right].
  rewrite !swap_ops_formula, !product.
  destruct (alpha [false; false]) as [p1 q1].
  destruct (alpha [false; true]) as [p2 q2].
  destruct (alpha [true; false]) as [p3 q3].
  destruct (alpha [true; true]) as [p4 q4].
  destruct (beta [false; false]) as [u1 v1].
  destruct (beta [false; true]) as [u2 v2].
  destruct (beta [true; false]) as [u3 v3].
  destruct (beta [true; true]) as [u4 v4].
  csimpl. field.
Qed.

Lemma swap_test_nonneg : 0 <= expval_PauliZ 5 0 (run swap_ops psi).
Proof. rewrite swap_test_inner. apply Cnorm2_nonneg. Qed.

Lemma swap_test_le_norms :
  expval_PauliZ 5 0 (run swap_ops psi) <= norm2 2 alpha * norm2 2 beta.
Proof.
  rewrite expval_as_probability, swap_test_total.
  pose proof (Rsum_norms_nonneg (fun x => run swap_ops psi (true :: x))
                (all_basis 4)) as Hp.
  simpl in Hp |- *. lra.
Qed.

End SwapTestValue.

(** ** The feature map preserves the norm *)

Lemma sin_cos_half (theta : R) :
  sin (theta / 2) * sin (theta / 2) + cos (theta / 2) * cos (theta / 2) = 1.
Proof.
  pose proof (sin2_cos2 (theta / 2)) as H. unfold Rsqr in H. exact H.
Qed.

Ltac unit_circle theta :=
  pose proof (sin_cos_half theta) as Hcs;
  generalize dependent (sin (theta / 2)); intros s;
  generalize dependent (cos (theta / 2)); intros c Hcs;
  match goal with
  | |- ?L = ?N =>
      transitivity ((s * s + c * c) * N); [ring | rewrite Hcs; ring]
  end.

Lemma apply_op_norm (o : op) (phi : state) :
  embedding_gate o -> norm2 2 (apply_op o phi) = norm2 2 phi.
Proof.
  intros H. unfold norm2.
  cbn [all_basis map app Rsum fold_right].
  destruct o as [theta w|theta w|theta w|c t|w|c a b]; simpl in H;
    try contradiction.
  - destruct w as [|[|w]]; [| |lia];
      cbn [apply_op]; unfold apply1, get_bit, RX_matrix;
      cbn [nth set_bit Bool.eqb];
      destruct (phi [false; false]) as [x1 y1];
      destruct (phi [false; true]) as [x2 y2];
      destruct (phi [true; false]) as [x3 y3];
      destruct (phi [true; true]) as [x4 y4];
      csimpl; unit_circle theta.
  - destruct w as [|[|w]]; [| |lia];
      cbn [apply_op]; unfold apply1, get_bit, RY_matrix;
      cbn [nth set_bit];
      destruct (phi [false; false]) as [x1 y1];
      destruct (phi [false; true]) as [x2 y2];
      destruct (phi [true; false]) as [x3 y3];
      destruct (phi [true; true]) as [x4 y4];
      csimpl; unit_circle theta.
  - destruct w as [|[|w]]; [| |lia];
      cbn [apply_op]; unfold apply1, get_bit, RZ_matrix;
      cbn [nth set_bit];
      destruct (phi [false; false]) as [x1 y1];
      destruct (phi [false; true]) as [x2 y2];
      destruct (phi [true; false]) as [x3 y3];
      destruct (phi [true; true]) as [x4 y4];
      csimpl; unit_circle theta.
  - destruct H as [Hc [Ht Hct]].
    destruct c as [|[|c]], t as [|[|t]]; try lia; try congruence;
      cbn [apply_op]; unfold get_bit; cbn [nth set_bit xorb]; ring.
Qed.

Lemma run_norm (ops : list op) :
  Forall embedding_gate ops ->
  forall phi : state, norm2 2 (run ops phi) = norm2 2 phi.
Proof.
  induction 1 as [|o ops Ho Hops IH]; intros phi; [reflexivity|].
  rewrite run_cons, IH. now apply apply_op_norm.
Qed.

Lemma embedded_state_norm (f0 f1 : R) (rows : list (R * R * R)) :
  norm2 2 (embedded_state f0 f1 rows) = 1.
Proof.
  unfold embedded_state. rewrite run_norm by apply embedding_ops_gates.
  unfold norm2, zero_state. simpl. csimpl. ring.
Qed.

Lemma inner_sym (alpha beta : state) :
  Cnorm2 (inner 2 alpha beta) = Cnorm2 (inner 2 beta alpha).
Proof.
  unfold inner. cbn [all_basis map app fold_right].
  destruct (alpha [false; false]) as [p1 q1].
  destruct (alpha [false; true]) as [p2 q2].
  destruct (alpha [true; false]) as [p3 q3].
  destruct (alpha [true; true]) as [p4 q4].
  destruct (beta [false; false]) as [u1 v1].
  destruct (beta [false; true]) as [u2 v2].
  destruct (beta [true; false]) as [u3 v3].
  destruct (beta [true; true]) as [u4 v4].
  csimpl. ring.
Qed.

Lemma inner_self (alpha : state) :
  Cnorm2 (inner 2 alpha alpha) = norm2 2 alpha * norm2 2 alpha.
Proof.
  unfold inner, norm2. cbn [all_basis map app fold_right Rsum].
  destruct (alpha [false; false]) as [p1 q1].
  destruct (alpha [false; true]) as [p2 q2].
  destruct (alpha [true; false]) as [p3 q3].
  destruct (alpha [true; true]) as [p4 q4].
  csimpl. ring.
Qed.

(** ** The value of [swap_test] *)

Lemma swap_test_value (q : matrix) (x1 x2 : vector) :
  swap_test q x1 x2 =
  match features2 x1, features2 x2, rows3 q with
  | Some a, Some b, Some rows => Ok (overlap_value a b rows)
  | _, _, _ => Raise IndexError
  end.
Proof.
  unfold swap_test, swap_test_circuit.
  rewrite !QAOAEmbedding_pair by lia.
  destruct (features2 x1) as [[a0 a1]|]; [|reflexivity].
  destruct (rows3 q) as [rows|]; [|destruct (features2 x2); reflexivity].
  cbn [bind].
  destruct (features2 x2) as [[b0 b1]|]; [|reflexivity].
  cbn [bind n_features seq mapM mk_CSWAP Nat.add Nat.eqb orb].
  f_equal.
  change ([Hadamard 0] ++ [CSWAP 0 1 3; CSWAP 0 2 4] ++ [Hadamard 0])
    with swap_ops.
  rewrite app_assoc, run_app.
  change n_qubits with 5%nat.
  apply swap_test_inner. intros a b c d e. apply embedded_pair_state.
Qed.

(** ** Overlaps *)

Lemma matvec_error (M : matrix) (x : vector) (e : exn) :
  matvec M x = Raise e -> e = ValueError.
Proof.
  unfold matvec. induction M as [|row M IH]; cbn [mapM]; [discriminate|].
  destruct (Nat.eqb (length row) (length x)); cbn [bind].
  - destruct (mapM _ M) as [v|e']; cbn [bind]; [discriminate|].
    intros H; injection H as <-. now apply IH.
  - intros H; injection H as <-. reflexivity.
Qed.

Lemma matvec_Ok (M : matrix) (x : vector) :
  Forall (fun row => length row = length x) M ->
  matvec M x = Ok (map (fun row => dot row x) M).
Proof.
  unfold matvec. induction 1 as [|row M Hrow HM IH]; [reflexivity|].
  cbn [mapM map]. rewrite Hrow, Nat.eqb_refl. cbn [bind].
  rewrite IH. reflexivity.
Qed.

Lemma features2_length (v : vector) :
  (2 <= length v)%nat -> exists a, features2 v = Some a.
Proof.
  destruct v as [|f0 [|f1 t]]; simpl; try lia. intros _. now exists (f0, f1).
Qed.

Lemma rows3_shape (q : matrix) :
  Forall (fun row => length row = (n_features + 1)%nat) q ->
  exists rows, rows3 q = Some rows.
Proof.
  induction 1 as [|row q Hrow Hq [rows IH]]; [now exists []|].
  destruct row as [|j [|h0 [|h1 [|? ?]]]]; try discriminate.
  cbn [rows3 row3]. rewrite IH. eauto.
Qed.

Lemma swap_test_sym (q : matrix) (x1 x2 : vector) :
  swap_test q x1 x2 = swap_test q x2 x1.
Proof.
  rewrite !swap_test_value.
  destruct (features2 x1) as [a|], (features2 x2) as [b|],
    (rows3 q) as [rows|]; try reflexivity.
  unfold overlap_value. now rewrite inner_sym.
Qed.

Lemma swap_test_self (q : matrix) (x : vector) (v : R) :
  swap_test q x x = Ok v -> v = 1.
Proof.
  rewrite swap_test_value.
  destruct (features2 x) as [a|]; [|discriminate].
  destruct (rows3 q) as [rows|]; [|discriminate].
  intros H; injection H as <-.
  unfold overlap_value. rewrite inner_self, embedded_state_norm. ring.
Qed.

Lemma swap_test_range (q : matrix) (x1 x2 : vector) (v : R) :
  swap_test q x1 x2 = Ok v -> 0 <= v <= 1.
Proof.
  unfold swap_test.
  destruct (swap_test_circuit q x1 x2) as [circuit|e] eqn:Hc; [|discriminate].
  cbn [bind]. intros H; injection H as <-.
  revert Hc. unfold swap_test_circuit.
  rewrite !QAOAEmbedding_pair by lia.
  destruct (features2 x1) as [[a0 a1]|]; [|discriminate].
  destruct (rows3 q) as [rows|]; [|discriminate].
  cbn [bind].
  destruct (features2 x2) as [[b0 b1]|]; [|discriminate].
  cbn [bind n_features seq mapM mk_CSWAP Nat.add Nat.eqb orb].
  intros H; injection H as <-.
  change ([Hadamard 0] ++ [CSWAP 0 1 3; CSWAP 0 2 4] ++ [Hadamard 0])
    with swap_ops.
  rewrite app_assoc, run_app.
  change n_qubits with 5%nat.
  split.
  - eapply swap_test_nonneg. intros a b c d e. apply embedded_pair_state.
  - erewrite <- (Rmult_1_l 1).
    rewrite <- (embedded_state_norm a0 a1 rows) at 1.
    rewrite <- (embedded_state_norm b0 b1 rows).
    eapply swap_test_le_norms. intros a b c d e. apply embedded_pair_state.
Qed.

(** In exact arithmetic the overlap of two points does not depend on their
    order, and neither does the exception when the evaluation raises. *)
Lemma pair_overlap_sym (w : matrix * matrix) (a b : vector) :
  pair_overlap w a b = pair_overlap w b a.
Proof.
  unfold pair_overlap.
  destruct (matvec (fst w) a) as [wa|ea] eqn:Ha,
           (matvec (fst w) b) as [wb|eb] eqn:Hb; cbn [bind];
    try reflexivity.
  - apply swap_test_sym.
  - apply matvec_error in Ha, Hb. congruence.
Qed.

(** In exact arithmetic every overlap lies in [[0, 1]]. *)
Lemma pair_overlap_range (w : matrix * matrix) (a b : vector) (v : R) :
  pair_overlap w a b = Ok v -> 0 <= v <= 1.
Proof.
  unfold pair_overlap.
  destruct (matvec (fst w) a) as [wa|]; [|discriminate].
  destruct (matvec (fst w) b) as [wb|]; [|discriminate].
  cbn [bind]. apply swap_test_range.
Qed.

Lemma pair_overlap_defined (w : matrix * matrix) (a b : vector) :
  well_shaped w a -> length b = length a ->
  exists v, pair_overlap w a b = Ok v.
Proof.
  intros [HL [Hrows Hq]] Hb. unfold pair_overlap.
  rewrite (matvec_Ok _ a Hrows).
  rewrite (matvec_Ok _ b) by (rewrite Hb; exact Hrows).
  cbn [bind]. rewrite swap_test_value.
  destruct (features2_length (map (fun row => dot row a) (fst w)))
    as [fa ->]; [rewrite length_map; unfold matrix, vector in *; lia|].
  destruct (features2_length (map (fun row => dot row b) (fst w)))
    as [fb ->]; [rewrite length_map; unfold matrix, vector in *; lia|].
  destruct (rows3_shape _ Hq) as [rows ->]. eauto.
Qed.

Lemma pair_overlap_self (w : matrix * matrix) (x : vector) :
  well_shaped w x -> pair_overlap w x x = Ok 1.
Proof.
  intros Hw.
  destruct (pair_overlap_defined w x x Hw eq_refl) as [v Hv].
  rewrite Hv. f_equal.
  revert Hv. unfold pair_overlap.
  destruct (matvec (fst w) x) as [wx|]; [|discriminate].
  cbn [bind]. apply swap_test_self.
Qed.

(** A loop that adds one term per element. *)
Lemma foldM_additive {A : Type} (f : R -> A -> result R) (h : A -> R)
  (l : list A) :
  (forall x acc, In x l -> f acc x = Ok (acc + h x)) ->
  forall acc, foldM f l acc = Ok (acc + Rsum (map h l)).
Proof.
  induction l as [|x l IH]; intros Hf acc; cbn [foldM map Rsum fold_right].
  - f_equal. ring.
  - rewrite Hf by (left; reflexivity). cbn [bind].
    rewrite IH by (intros; apply Hf; right; assumption).
    f_equal. fold (Rsum (map h l)). ring.
Qed.

Lemma foldM_body_Ok {A S : Type} (f : S -> A -> result S) (l : list A) :
  forall (s r : S), foldM f l s = Ok r ->
  forall x, In x l -> exists s' r', f s' x = Ok r'.
Proof.
  induction l as [|y l IH]; intros s r H x Hx; [destruct Hx|].
  cbn [foldM] in H. apply bind_Ok in H. destruct H as [s1 [H1 H2]].
  destruct Hx as [->|Hx]; [eauto|]. eapply IH; eauto.
Qed.

Lemma overlaps_single (w : matrix * matrix) (a b : vector) :
  overlaps w [a] [b] = pair_overlap w a b.
Proof.
  unfold overlaps. cbn [foldM length].
  destruct (pair_overlap w a b) as [v|e]; cbn [bind]; [|reflexivity].
  unfold true_div. simpl. f_equal. field.
Qed.

Lemma Rsum_app (l1 l2 : list R) : Rsum (l1 ++ l2) = Rsum l1 + Rsum l2.
Proof.
  unfold Rsum. induction l1 as [|r l1 IH]; simpl; [ring|]. rewrite IH. ring.
Qed.

Lemma Rsum_list_prod {A B : Type} (g : A -> B -> R) (l1 : list A)
  (l2 : list B) :
  Rsum (map (fun p => g (fst p) (snd p)) (list_prod l1 l2)) =
  Rsum (map (fun a => Rsum (map (g a) l2)) l1).
Proof.
  induction l1 as [|a l1 IH]; [reflexivity|].
  cbn [list_prod map]. rewrite map_app, Rsum_app, IH, map_map.
  reflexivity.
Qed.

Lemma overlaps_sum (w : matrix * matrix) (ov : vector -> vector -> R)
  (X1 X2 : list vector) :
  (forall x1 x2, In x1 X1 -> In x2 X2 -> pair_overlap w x1 x2 = Ok (ov x1 x2)) ->
  overlaps w X1 X2 =
  true_div (Rsum (map (fun p => ov (fst p) (snd p)) (list_prod X1 X2)))
           (Z.of_nat (length X1) * Z.of_nat (length X2)).
Proof.
  intros Hov. unfold overlaps.
  rewrite (foldM_additive _ (fun x1 => Rsum (map (ov x1) X2))).
  - cbn [bind]. rewrite Rsum_list_prod. f_equal. ring.
  - intros x1 acc Hx1.
    apply foldM_additive. intros x2 acc' Hx2.
    rewrite (Hov x1 x2 Hx1 Hx2). reflexivity.
Qed.

Lemma overlaps_pairs_Ok (w : matrix * matrix) (X1 X2 : list vector) (v : R) :
  overlaps w X1 X2 = Ok v ->
  forall x1 x2, In x1 X1 -> In x2 X2 ->
    pair_overlap w x1 x2 = Ok (value_of (pair_overlap w x1 x2)).
Proof.
  unfold overlaps. intros H x1 x2 H1 H2.
  apply bind_Ok in H. destruct H as [total [H _]].
  destruct (foldM_body_Ok _ _ _ _ H x1 H1) as [s' [r' Hin]].
  destruct (foldM_body_Ok _ _ _ _ Hin x2 H2) as [s'' [r'' Hb]].
  apply bind_Ok in Hb. destruct Hb as [u [Hu _]].
  rewrite Hu. reflexivity.
Qed.

(* ================================================================== *)
(** * The overlap evaluator and the cost *)

Lemma demo_shape : well_shaped demo_pars demo_x.
Proof.
  unfold well_shaped, demo_pars, demo_x. cbn [fst snd length].
  repeat split; repeat constructor.
Qed.

Lemma IZR_lengths (a b : nat) :
  IZR (Z.of_nat a * Z.of_nat b) = INR (a * b).
Proof.
  now rewrite <- Nat2Z.inj_mul, <- INR_IZR_INZ.
Qed.

(** C1: [cost] returns exactly [1 - 0.5 * d] for
    [d = -2 * ab + (aa + bb)], where [aa], [bb] and [ab] are the mean
    overlaps of [A] with itself, of [B] with itself and of [A] with [B];
    the value is returned as computed, without clamping, and [cost]
    returns whenever the three mean overlaps do. *)
Theorem cost_formula (weights : matrix * matrix) (A B : list vector) (c : R) :
  cost weights A B = Ok c <->
  exists aa bb ab,
    overlaps weights A A = Ok aa /\
    overlaps weights B B = Ok bb /\
    overlaps weights A B = Ok ab /\
    c = 1 - 0.5 * (-2 * ab + (aa + bb)).
Proof.
  unfold cost. split.
  - intros H.
    apply bind_Ok in H. destruct H as [aa [Haa H]].
    apply bind_Ok in H. destruct H as [bb [Hbb H]].
    apply bind_Ok in H. destruct H as [ab [Hab H]].
    injection H as <-. exists aa, bb, ab. auto.
  - intros [aa [bb [ab [-> [-> [-> ->]]]]]]. reflexivity.
Qed.

(** C2: on non-empty [X1] and [X2], [overlaps] returns the arithmetic mean
    of the pair overlap over every ordered pair of [X1] and [X2]: the sum
    over all [len(X1) * len(X2)] pairs, self-pairs included, divided by
    [len(X1) * len(X2)]. *)
Theorem overlaps_is_mean (weights : matrix * matrix)
  (ov : vector -> vector -> R) (X1 X2 : list vector) :
  X1 <> [] -> X2 <> [] ->
  (forall x1 x2, In x1 X1 -> In x2 X2 ->
                 pair_overlap weights x1 x2 = Ok (ov x1 x2)) ->
  overlaps weights X1 X2 = Ok (mean_over_pairs ov X1 X2).
Proof.
  intros H1 H2 Hov. rewrite (overlaps_sum weights ov X1 X2 Hov).
  unfold true_div, mean_over_pairs.
  destruct (Z.eqb_spec (Z.of_nat (length X1) * Z.of_nat (length X2)) 0)
    as [E|E].
  - destruct X1; [congruence|]. destruct X2; [congruence|].
    simpl length in E. lia.
  - now rewrite IZR_lengths.
Qed.

Lemma overlaps_is_mean_witness :
  overlaps demo_pars [demo_x; demo_x] [demo_x] =
  Ok (mean_over_pairs (fun _ _ => 1) [demo_x; demo_x] [demo_x]).
Proof.
  apply overlaps_is_mean; try discriminate.
  intros x1 x2 [<-|[<-|[]]] [<-|[]]; apply pair_overlap_self, demo_shape.
Defined.

(** C6: a point overlaps with itself exactly: for parameters and an input
    of the shapes of the data model, [overlaps weights [x] [x]] is [1]. *)
Theorem overlaps_self (weights : matrix * matrix) (x : vector) :
  well_shaped weights x -> overlaps weights [x] [x] = Ok 1.
Proof.
  intros H. rewrite overlaps_single. now apply pair_overlap_self.
Qed.

Lemma overlaps_self_witness : overlaps demo_pars [demo_x] [demo_x] = Ok 1.
Proof.
  apply overlaps_self. apply demo_shape.
Defined.

(** C10: when [X1] or [X2] is empty, [overlaps] returns no value: the
    division of the accumulated sum by [len(X1) * len(X2)] raises
    [ZeroDivisionError], whatever the parameters. *)
Theorem overlaps_empty (weights : matrix * matrix) (X : list vector) :
  overlaps weights [] X = Raise ZeroDivisionError /\
  overlaps weights X [] = Raise ZeroDivisionError.
Proof.
  split; [reflexivity|].
  unfold overlaps.
  rewrite (foldM_additive _ (fun _ => 0))
    by (intros; cbn [foldM]; f_equal; ring).
  cbn [bind length]. unfold true_div.
  now rewrite Z.mul_0_r.
Qed.

(* ================================================================== *)
(** * The embedding ansatz *)

Lemma count_ops_app (f : op -> bool) (l1 l2 : list op) :
  count_ops f (l1 ++ l2) = (count_ops f l1 + count_ops f l2)%nat.
Proof.
  unfold count_ops. now rewrite filter_app, length_app.
Qed.

Lemma rows3_full (weights : matrix) :
  Forall (fun row => length row = (n_features + 1)%nat) weights ->
  rows3 weights =
  Some (map (fun row => (nth 0 row 0, nth 1 row 0, nth 2 row 0)) weights).
Proof.
  induction 1 as [|row q Hrow Hq IH]; [reflexivity|].
  destruct row as [|j [|h0 [|h1 [|? ?]]]]; try discriminate.
  cbn [rows3 row3 map nth]. now rewrite IH.
Qed.

Lemma ansatz_counts (features : vector) (weights : matrix) (p r : nat) :
  let ops := ansatz_sequence features weights p r in
  count_ops is_RX ops = (2 * (length weights + 1))%nat /\
  count_ops is_CNOT ops = (2 * length weights)%nat /\
  count_ops is_RZ ops = length weights /\
  count_ops is_RY ops = (2 * length weights)%nat.
Proof.
  unfold ansatz_sequence. cbn zeta.
  induction weights as [|row q IH].
  - cbn. repeat split.
  - cbn [flat_map length]. rewrite <- !app_assoc.
    destruct IH as [IH1 [IH2 [IH3 IH4]]].
    repeat split; do 3 rewrite count_ops_app;
      [rewrite IH1 | rewrite IH2 | rewrite IH3 | rewrite IH4];
      cbn; lia.
Qed.

(** C9: for two features, [n_features + 1] weights per layer and a pair of
    distinct wires, the ansatz queues exactly [ansatz_sequence]: per layer
    one [RX] per wire by the feature of the wire's index, then the coupling
    of the two wires by the layer's first weight and one [RY] per wire by
    the layer's next weights, and after the last layer the feature
    encoding once more; with [L] layers that is [L + 1] feature encodings
    and [L] couplings and local-field layers. *)
Theorem QAOAEmbedding_sequence (features : vector) (weights : matrix)
  (p r : nat) :
  length features = n_features ->
  Forall (fun row => length row = (n_features + 1)%nat) weights ->
  p <> r ->
  QAOAEmbedding features weights [p; r] =
    Ok (ansatz_sequence features weights p r) /\
  count_ops is_RX (ansatz_sequence features weights p r) =
    (2 * (length weights + 1))%nat /\
  count_ops is_CNOT (ansatz_sequence features weights p r) =
    (2 * length weights)%nat /\
  count_ops is_RZ (ansatz_sequence features weights p r) = length weights /\
  count_ops is_RY (ansatz_sequence features weights p r) =
    (2 * length weights)%nat.
Proof.
  intros Hf Hw Hpr. split; [|apply ansatz_counts].
  rewrite (QAOAEmbedding_pair _ _ _ _ Hpr), (rows3_full _ Hw).
  destruct features as [|f0 [|f1 [|? ?]]]; try discriminate.
  cbn [features2]. f_equal.
  unfold embedding_ops, ansatz_sequence. f_equal.
  clear Hw. induction weights as [|row q IH]; [reflexivity|].
  cbn [map flat_map]. now rewrite IH.
Qed.

Lemma QAOAEmbedding_sequence_witness :
  QAOAEmbedding [1; 2] (snd demo_pars) [1; 2]%nat =
    Ok (ansatz_sequence [1; 2] (snd demo_pars) 1 2) /\
  count_ops is_RX (ansatz_sequence [1; 2] (snd demo_pars) 1 2) =
    (2 * (length (snd demo_pars) + 1))%nat /\
  count_ops is_CNOT (ansatz_sequence [1; 2] (snd demo_pars) 1 2) =
    (2 * length (snd demo_pars))%nat /\
  count_ops is_RZ (ansatz_sequence [1; 2] (snd demo_pars) 1 2) =
    length (snd demo_pars) /\
  count_ops is_RY (ansatz_sequence [1; 2] (snd demo_pars) 1 2) =
    (2 * length (snd demo_pars))%nat.
Proof.
  apply QAOAEmbedding_sequence.
  - reflexivity.
  - repeat constructor.
  - discriminate.
Defined.

(* ================================================================== *)
(** * The classifier *)

Lemma bindS_Ok {A B : Type} (m : rand A) (k : A -> rand B) (pos : nat)
  (r : B * nat) :
  bindS m k pos = Ok r ->
  exists a pos1, m pos = Ok (a, pos1) /\ k a pos1 = Ok r.
Proof.
  unfold bindS. destruct (m pos) as [[a pos1]|e]; [eauto|discriminate].
Qed.

Lemma getitem_nth {A : Type} (l : list A) (i : nat) (d : A) :
  (i < length l)%nat -> getitem l i = Ok (nth i l d).
Proof.
  intros H. unfold getitem. now rewrite (nth_error_nth' l d H).
Qed.

Lemma bindS_step {A B : Type} (m : rand A) (k : A -> rand B) (pos pos1 : nat)
  (a : A) :
  m pos = Ok (a, pos1) -> bindS m k pos = k a pos1.
Proof. unfold bindS. now intros ->. Qed.

(** One draw adds the label of the drawn sample times its overlap with the
    query. *)
Lemma sampling_step (e : env) (gen : nat -> nat) (x_new : vector)
  (acc v : R) (pos : nat) :
  length (X e) <> 0%nat -> length (Y e) = length (X e) ->
  overlaps (pars e) [nth (drawn_index e gen pos) (X e) []] [x_new] = Ok v ->
  (sample_index <~ random_choice gen (length (X e)) ;;
   x <~ lift (getitem (X e) sample_index) ;;
   y <~ lift (getitem (Y e) sample_index) ;;
   overlap <~ lift (overlaps (pars e) [x] [x_new]) ;;
   ret (acc + y * overlap)) pos =
  Ok (acc + nth (drawn_index e gen pos) (Y e) 0 * v, S pos).
Proof.
  intros HX HY Hv.
  assert (Hlt : (drawn_index e gen pos < length (X e))%nat)
    by (apply Nat.mod_upper_bound; exact HX).
  rewrite (bindS_step _ _ pos (S pos) (drawn_index e gen pos)).
  - rewrite (bindS_step _ _ _ (S pos) (nth (drawn_index e gen pos) (X e) []))
      by (now rewrite (getitem_nth (X e) _ [] Hlt)).
    rewrite (bindS_step _ _ _ (S pos) (nth (drawn_index e gen pos) (Y e) 0))
      by (rewrite (getitem_nth (Y e) _ 0); [reflexivity | now rewrite HY]).
    rewrite (bindS_step _ _ _ (S pos) v) by (now rewrite Hv).
    reflexivity.
  - unfold random_choice.
    destruct (Nat.eqb_spec (length (X e)) 0) as [E|_]; [contradiction|].
    reflexivity.
Qed.

(** The sampling loop: every draw adds its term. *)
Lemma sampling_loop (e : env) (gen : nat -> nat) (x_new : vector)
  (ov : nat -> R) :
  length (X e) <> 0%nat -> length (Y e) = length (X e) ->
  forall (l : list Z) (acc : R) (pos : nat),
    (forall k, (pos <= k < pos + length l)%nat ->
       overlaps (pars e) [nth (drawn_index e gen k) (X e) []] [x_new]
       = Ok (ov k)) ->
    foldS (fun prediction (_ : Z) =>
             sample_index <~ random_choice gen (length (X e)) ;;
             x <~ lift (getitem (X e) sample_index) ;;
             y <~ lift (getitem (Y e) sample_index) ;;
             overlap <~ lift (overlaps (pars e) [x] [x_new]) ;;
             ret (prediction + y * overlap)) l acc pos =
    Ok (acc + Rsum (map (fun k => nth (drawn_index e gen k) (Y e) 0 * ov k)
                        (seq pos (length l))),
        (pos + length l)%nat).
Proof.
  intros HX HY. induction l as [|z l IH]; intros acc pos Hov.
  - cbn [foldS length seq map Rsum fold_right]. unfold ret.
    rewrite Nat.add_0_r. do 2 f_equal. ring.
  - cbn [length] in Hov. cbn [foldS].
    erewrite bindS_step;
      [|apply (sampling_step e gen x_new acc (ov pos) pos HX HY);
        apply Hov; lia].
    rewrite IH by (intros k Hk; apply Hov; lia).
    cbn [length seq map Rsum fold_right].
    f_equal. f_equal; [|lia].
    fold (Rsum (map (fun k => nth (drawn_index e gen k) (Y e) 0 * ov k)
                    (seq (S pos) (length l)))).
    ring.
Qed.

Lemma zrange_length (lo hi : Z) : length (zrange lo hi) = Z.to_nat (hi - lo).
Proof.
  unfold zrange. now rewrite length_map, length_seq.
Qed.

Lemma pred_of_Bee (prediction : R) : pred_of prediction = Bee <-> prediction < 0.
Proof.
  unfold pred_of. destruct (Rlt_dec prediction 0); split; intros;
    try reflexivity; try assumption; try discriminate; contradiction.
Qed.


(** The value of [prediction_score] on a non-empty pool. *)
Lemma prediction_score_value (e : env) (gen : nat -> nat) (n_samples : Z)
  (x_new : vector) (pos : nat) (ov : nat -> R) :
  (1 <= n_samples)%Z ->
  length (X e) <> 0%nat -> length (Y e) = length (X e) ->
  (forall k, (pos <= k < pos + Z.to_nat n_samples)%nat ->
     overlaps (pars e) [nth (drawn_index e gen k) (X e) []] [x_new]
     = Ok (ov k)) ->
  prediction_score e gen n_samples x_new pos =
    Ok (score_of_draws e gen pos n_samples ov, (pos + Z.to_nat n_samples)%nat).
Proof.
  intros Hn HX HY Hov.
  unfold prediction_score, bindS.
  rewrite (sampling_loop e gen x_new ov HX HY);
    rewrite zrange_length, Z.sub_0_r; [|exact Hov].
  unfold true_div, lift.
  destruct (Z.eqb_spec n_samples 0) as [E|E]; [lia|].
  unfold score_of_draws. do 2 f_equal.
  field. apply not_0_IZR. exact E.
Qed.



Lemma demo_draw_overlap (k : nat) :
  overlaps (pars demo_env)
    [nth (drawn_index demo_env (fun _ => 0%nat) k) (X demo_env) []] [demo_x]
  = Ok 1.
Proof.
  change (nth (drawn_index demo_env (fun _ => 0%nat) k) (X demo_env) [])
    with demo_x.
  change (pars demo_env) with demo_pars.
  rewrite overlaps_single. apply pair_overlap_self, demo_shape.
Qed.

Lemma count_query_sums (choice : Z) (prediction : R) (t : tally) :
  let t' := count_query choice prediction t in
  (choice = 0%Z ->
   (truepos t' + falseneg t' = truepos t + falseneg t + 1)%Z /\
   falsepos t' = falsepos t /\ trueneg t' = trueneg t) /\
  (choice <> 0%Z ->
   (falsepos t' + trueneg t' = falsepos t + trueneg t + 1)%Z /\
   truepos t' = truepos t /\ falseneg t' = falseneg t).
Proof.
  destruct t as [[[tp fn] fp] tn]. unfold count_query.
  destruct (pred_of prediction), (Z.eqb_spec choice 0);
    unfold truepos, falseneg, falsepos, trueneg; cbn [fst snd];
    split; intros; try contradiction; repeat split; lia.
Qed.

(** The evaluation loop counts every query once, in the row of its true
    class. *)
Lemma predict_loop (e : env) (gen : nat -> nat) (n_samples choice : Z)
  (l : list Z) :
  forall (t0 t : tally) (pos pos' : nat),
    foldS (fun t i =>
             x_new <~ lift (if (choice =? 0)%Z
                            then py_index (A_val e) i
                            else py_index (B_val e) i) ;;
             prediction <~ prediction_score e gen n_samples x_new ;;
             ret (count_query choice prediction t)) l t0 pos = Ok (t, pos') ->
    (choice = 0%Z ->
     (truepos t + falseneg t
      = truepos t0 + falseneg t0 + Z.of_nat (length l))%Z /\
     falsepos t = falsepos t0 /\ trueneg t = trueneg t0) /\
    (choice <> 0%Z ->
     (falsepos t + trueneg t
      = falsepos t0 + trueneg t0 + Z.of_nat (length l))%Z /\
     truepos t = truepos t0 /\ falseneg t = falseneg t0).
Proof.
  induction l as [|i l IH]; intros t0 t pos pos' H.
  - cbn [foldS] in H. unfold ret in H. injection H as <- <-.
    cbn [length]. split; intros; repeat split; lia.
  - cbn [foldS] in H.
    apply bindS_Ok in H. destruct H as [t1 [pos1 [Hbody Hrest]]].
    apply bindS_Ok in Hbody. destruct Hbody as [x_new [pos2 [_ Hbody]]].
    apply bindS_Ok in Hbody. destruct Hbody as [prediction [pos3 [_ Hbody]]].
    unfold ret in Hbody. injection Hbody as <- <-.
    specialize (IH _ _ _ _ Hrest).
    pose proof (count_query_sums choice prediction t0) as Hq.
    cbn zeta in Hq. cbn [length]. rewrite Nat2Z.inj_succ.
    destruct IH as [IHa IHb], Hq as [Hqa Hqb].
    split; intros Hc.
    + destruct (IHa Hc) as [? [? ?]], (Hqa Hc) as [? [? ?]].
      repeat split; lia.
    + destruct (IHb Hc) as [? [? ?]], (Hqb Hc) as [? [? ?]].
      repeat split; lia.
Qed.

(** C4: the tally [predict] returns counts every evaluated query once:
    for [choice = 0], [truepos + falseneg] is the number of queries,
    [max 0 (pred_high - pred_low)], and [falsepos = trueneg = 0]; for any
    other [choice], [falsepos + trueneg] is that number and
    [truepos = falseneg = 0]. *)
Theorem predict_tally (e : env) (gen : nat -> nat)
  (n_samples pred_low pred_high choice : Z) (pos pos' : nat) (t : tally) :
  predict e gen n_samples pred_low pred_high choice pos = Ok (t, pos') ->
  (choice = 0%Z ->
   (truepos t + falseneg t = Z.max 0 (pred_high - pred_low))%Z /\
   falsepos t = 0%Z /\ trueneg t = 0%Z) /\
  (choice <> 0%Z ->
   (falsepos t + trueneg t = Z.max 0 (pred_high - pred_low))%Z /\
   truepos t = 0%Z /\ falseneg t = 0%Z).
Proof.
  unfold predict. intros H.
  apply predict_loop in H. rewrite zrange_length in H.
  unfold truepos, falseneg, falsepos, trueneg in *. cbn [fst snd] in H.
  destruct H as [Ha Hb]. split; intros Hc.
  - destruct (Ha Hc) as [? [? ?]]. repeat split; lia.
  - destruct (Hb Hc) as [? [? ?]]. repeat split; lia.
Qed.

Lemma demo_score :
  prediction_score demo_env (fun _ => 0%nat) 1 demo_x 0%nat =
  Ok (score_of_draws demo_env (fun _ => 0%nat) 0 1 (fun _ => 1), 1%nat).
Proof.
  apply (prediction_score_value demo_env (fun _ => 0%nat) 1 demo_x 0%nat
           (fun _ => 1)).
  - lia.
  - discriminate.
  - reflexivity.
  - intros. apply demo_draw_overlap.
Qed.

Lemma demo_predict :
  predict demo_env (fun _ => 0%nat) 1 0 1 0 0%nat
  = Ok ((1, 0, 0, 0)%Z, 1%nat).
Proof.
  unfold predict. change (zrange 0 1) with [0%Z]. cbn [foldS].
  rewrite (bindS_step _ _ 0%nat 1%nat
             (count_query 0
                (score_of_draws demo_env (fun _ => 0%nat) 0 1 (fun _ => 1))
                (0, 0, 0, 0)%Z)).
  - unfold ret. do 2 f_equal. unfold count_query.
    assert (Hs : pred_of (score_of_draws demo_env (fun _ => 0%nat) 0 1
                            (fun _ => 1)) = Bee).
    { apply pred_of_Bee. unfold score_of_draws, drawn_index.
      change (Z.to_nat 1) with 1%nat.
      cbn [seq map Rsum fold_right demo_env X Y length Nat.modulo Nat.divmod
           fst snd Nat.sub nth].
      lra. }
    rewrite Hs. reflexivity.
  - rewrite (bindS_step _ _ 0%nat 0%nat demo_x) by reflexivity.
    rewrite (bindS_step _ _ 0%nat 1%nat _ demo_score).
    reflexivity.
Qed.

Lemma predict_tally_witness :
  predict demo_env (fun _ => 0%nat) 1 0 1 0 0%nat
  = Ok ((1, 0, 0, 0)%Z, 1%nat) /\
  (truepos (1, 0, 0, 0)%Z + falseneg (1, 0, 0, 0)%Z = Z.max 0 (1 - 0))%Z /\
  falsepos (1, 0, 0, 0)%Z = 0%Z /\ trueneg (1, 0, 0, 0)%Z = 0%Z.
Proof.
  split; [exact demo_predict|].
  apply (predict_tally demo_env (fun _ => 0%nat) 1 0 1 0 0%nat 1%nat
           (1, 0, 0, 0)%Z demo_predict).
  reflexivity.
Defined.

(** The tally of a call whose range is empty because [pred_high] is below
    [pred_low]: no query is counted, and [pred_high - pred_low] is not the
    count. *)
Lemma predict_reversed_range :
  predict demo_env (fun _ => 0%nat) 20 1 0 0 0%nat
  = Ok ((0, 0, 0, 0)%Z, 0%nat) /\
  (truepos (0, 0, 0, 0)%Z + falseneg (0, 0, 0, 0)%Z <> 0 - 1)%Z.
Proof.
  split; [reflexivity | discriminate].
Qed.

(* ================================================================== *)
(** * The derived metrics *)

(** The metrics of a tally with no predicted positive: the division for
    the precision raises, and the exception is the arithmetic one. *)
Lemma derived_metrics_no_positive :
  derived_metrics (0, 1, 0, 1)%Z = Raise ZeroDivisionError.
Proof. reflexivity. Qed.

(** C5: the derived metrics are computed without a guard: the computation
    raises [ZeroDivisionError] exactly when one of its divisors
    ([TP + FP], [TP + FN], the total, [TN + FP] or
    [precision + recall]) is zero, it raises nothing else, and otherwise it
    returns the values of the standard formulas. *)
Theorem derived_metrics_unguarded (totals : tally) :
  let tp := truepos totals in
  let fn := falseneg totals in
  let fp := falsepos totals in
  let tn := trueneg totals in
  let p := IZR tp / IZR (tp + fp) in
  let r := IZR tp / IZR (tp + fn) in
  (derived_metrics totals = Raise ZeroDivisionError <->
   (tp + fp = 0)%Z \/ (tp + fn = 0)%Z \/ (tp + fn + fp + tn = 0)%Z \/
   (tn + fp = 0)%Z \/ p + r = 0) /\
  (forall e, derived_metrics totals = Raise e -> e = ZeroDivisionError) /\
  (forall m, derived_metrics totals = Ok m ->
     precision m = p /\ recall m = r /\
     accuracy m = IZR (tp + tn) / IZR (tp + fn + fp + tn) /\
     specificity m = IZR tn / IZR (tn + fp) /\
     f1 m = 2 * p * r / (p + r)).
Proof.
  destruct totals as [[[tp fn] fp] tn].
  unfold derived_metrics, int_div, float_div, truepos, falseneg, falsepos,
    trueneg. cbn [fst snd]. cbn zeta.
  destruct (Z.eqb_spec (tp + fp) 0) as [E1|E1]; cbn [bind].
  { repeat split; intros; try discriminate; try tauto; congruence. }
  destruct (Z.eqb_spec (tp + fn) 0) as [E2|E2]; cbn [bind].
  { repeat split; intros; try discriminate; try tauto; congruence. }
  destruct (Z.eqb_spec (tp + fn + fp + tn) 0) as [E3|E3]; cbn [bind].
  { repeat split; intros; try discriminate; try tauto; congruence. }
  destruct (Z.eqb_spec (tn + fp) 0) as [E4|E4]; cbn [bind].
  { repeat split; intros; try discriminate; try tauto; congruence. }
  destruct (Req_dec_T (IZR tp / IZR (tp + fp) + IZR tp / IZR (tp + fn)) 0)
    as [E5|E5]; cbn [bind].
  { repeat split; intros; try discriminate; try tauto; congruence. }
  repeat split; intros; try discriminate;
    try (injection H as <-; reflexivity).
  intuition congruence.
Qed.

(* ================================================================== *)
(** * The coupling as a phase *)

Lemma set_bit_same (x : list bool) (w : nat) (b b' : bool) :
  set_bit (set_bit x w b) w b' = set_bit x w b'.
Proof.
  revert w; induction x as [|h t IH]; intros [|w]; simpl; auto.
  now rewrite IH.
Qed.

Lemma set_bit_get (x : list bool) (w : nat) : set_bit x w (get_bit x w) = x.
Proof.
  unfold get_bit. revert w; induction x as [|h t IH]; intros [|w]; simpl; auto.
  now rewrite IH.
Qed.

Lemma get_bit_set_same (x : list bool) (w : nat) (b : bool) :
  (w < length x)%nat -> get_bit (set_bit x w b) w = b.
Proof.
  unfold get_bit. revert w; induction x as [|h t IH]; intros [|w] H;
    simpl in *; try lia; auto.
  apply IH. lia.
Qed.

Lemma get_bit_set_other (x : list bool) (w w' : nat) (b : bool) :
  w <> w' -> get_bit (set_bit x w b) w' = get_bit x w'.
Proof.
  unfold get_bit. revert w w'; induction x as [|h t IH]; intros [|w] [|w'] H;
    simpl; auto; try congruence.
Qed.

(** X3: the three operations of the coupling multiply the amplitude of every
    basis word by a phase that depends on the parity of the two coupled
    bits and on the layer's first weight alone. *)
Lemma coupling_phase (j : R) (p r : nat) (psi : state) (x : list bool) :
  p <> r -> (p < length x)%nat ->
  run (coupling j p r) psi x =
  Cmul (zz_phase j (xorb (get_bit x p) (get_bit x r))) (psi x).
Proof.
  intros Hpr Hp. unfold coupling, run. cbn [fold_left apply_op].
  unfold apply1.
  rewrite !set_bit_same.
  rewrite !get_bit_set_same by (rewrite ?set_bit_length; exact Hp).
  rewrite !get_bit_set_other by exact Hpr.
  set (b := xorb (get_bit x p) (get_bit x r)).
  assert (Hb : xorb b (get_bit x r) = get_bit x p)
    by (unfold b; destruct (get_bit x p), (get_bit x r); reflexivity).
  destruct b eqn:Eb; unfold RZ_matrix, zz_phase.
  - rewrite Hb, set_bit_get, Cmul_0_l.
    destruct (psi x); csimpl; f_equal; ring.
  - rewrite Hb, set_bit_get, Cmul_0_l.
    destruct (psi x); csimpl; f_equal; ring.
Qed.

(* ================================================================== *)
(** * Well-shaped inputs are evaluated *)

Lemma well_shaped_width (w : matrix * matrix) (a b : vector) :
  well_shaped w a -> well_shaped w b -> length b = length a.
Proof.
  intros [HLa [Hra _]] [_ [Hrb _]].
  destruct (fst w) as [|row rest]; [discriminate|].
  inversion Hra; inversion Hrb; subst. congruence.
Qed.

Lemma overlaps_defined (w : matrix * matrix) (X1 X2 : list vector) :
  X1 <> [] -> X2 <> [] ->
  inputs_shaped w X1 -> inputs_shaped w X2 ->
  exists v, overlaps w X1 X2 = Ok v.
Proof.
  intros H1 H2 HX1 HX2.
  rewrite (overlaps_sum w (fun x1 x2 => value_of (pair_overlap w x1 x2))).
  - unfold true_div.
    destruct (Z.eqb_spec (Z.of_nat (length X1) * Z.of_nat (length X2)) 0)
      as [E|E]; [|eauto].
    destruct X1; [congruence|]. destruct X2; [congruence|].
    simpl length in E. lia.
  - intros x1 x2 Hx1 Hx2.
    unfold inputs_shaped in *. rewrite Forall_forall in HX1, HX2.
    destruct (pair_overlap_defined w x1 x2 (HX1 _ Hx1)) as [v Hv].
    + eapply well_shaped_width; eauto.
    + rewrite Hv. reflexivity.
Qed.

(** On non-empty batches of well-shaped inputs the cost is returned. *)
Lemma cost_defined (w : matrix * matrix) (A B : list vector) :
  A <> [] -> B <> [] -> inputs_shaped w A -> inputs_shaped w B ->
  exists c, cost w A B = Ok c.
Proof.
  intros HA HB HsA HsB. unfold cost.
  destruct (overlaps_defined w A A HA HA HsA HsA) as [aa ->].
  destruct (overlaps_defined w B B HB HB HsB HsB) as [bb ->].
  destruct (overlaps_defined w A B HA HB HsA HsB) as [ab ->].
  cbn [bind]. eauto.
Qed.

Lemma prediction_score_defined (e : env) (gen : nat -> nat) (n_samples : Z)
  (x_new : vector) (pos : nat) :
  (1 <= n_samples)%Z ->
  length (X e) <> 0%nat -> length (Y e) = length (X e) ->
  inputs_shaped (pars e) (X e) -> well_shaped (pars e) x_new ->
  exists score,
    prediction_score e gen n_samples x_new pos =
    Ok (score, (pos + Z.to_nat n_samples)%nat).
Proof.
  intros Hn HX HY HsX Hsx.
  eexists.
  apply (prediction_score_value e gen n_samples x_new pos
           (fun k => value_of
                       (overlaps (pars e)
                          [nth (drawn_index e gen k) (X e) []] [x_new])));
    try assumption.
  intros k _.
  destruct (overlaps_defined (pars e)
              [nth (drawn_index e gen k) (X e) []] [x_new]) as [v Hv];
    try discriminate.
  - constructor; [|constructor].
    unfold inputs_shaped in HsX. rewrite Forall_forall in HsX.
    apply HsX, nth_In, Nat.mod_upper_bound. exact HX.
  - constructor; [exact Hsx | constructor].
  - rewrite Hv. reflexivity.
Qed.

(** With at least one draw per query, a non-empty labelled pool, indices
    inside the validation set and well-shaped inputs, [predict] returns a
    tally. *)
Lemma predict_defined (e : env) (gen : nat -> nat)
  (n_samples pred_low pred_high choice : Z) (pos : nat) :
  (1 <= n_samples)%Z ->
  length (X e) <> 0%nat -> length (Y e) = length (X e) ->
  inputs_shaped (pars e) (X e) ->
  inputs_shaped (pars e) (if (choice =? 0)%Z then A_val e else B_val e) ->
  (0 <= pred_low)%Z ->
  (pred_high <= Z.of_nat (length (if (choice =? 0)%Z
                                  then A_val e else B_val e)))%Z ->
  exists t pos',
    predict e gen n_samples pred_low pred_high choice pos = Ok (t, pos').
Proof.
  intros Hn HX HY HsX HsV Hlo Hhi. unfold predict.
  assert (Hidx : forall i, In i (zrange pred_low pred_high) ->
            exists x_new,
              (if (choice =? 0)%Z then py_index (A_val e) i
               else py_index (B_val e) i) = Ok x_new /\
              well_shaped (pars e) x_new).
  { intros i Hi. unfold zrange in Hi. apply in_map_iff in Hi.
    destruct Hi as [k [<- Hk]]. apply in_seq in Hk.
    unfold inputs_shaped in HsV. rewrite Forall_forall in HsV.
    revert HsV Hhi.
    destruct (choice =? 0)%Z; intros HsV Hhi; unfold py_index;
      (destruct (Z.leb_spec 0 (pred_low + Z.of_nat k)); [|lia]);
      eexists;
      (split; [apply getitem_nth with (d := []); unfold vector in *; lia|]);
      apply HsV, nth_In; unfold vector in *; lia. }
  generalize (0, 0, 0, 0)%Z as t0. revert pos.
  induction (zrange pred_low pred_high) as [|i l IH]; intros pos t0.
  - cbn [foldS]. unfold ret. eauto.
  - cbn [foldS].
    destruct (Hidx i (or_introl eq_refl)) as [x_new [Hx Hs]].
    destruct (prediction_score_defined e gen n_samples x_new pos
                Hn HX HY HsX Hs) as [score Hscore].
    rewrite (bindS_step _ _ pos (pos + Z.to_nat n_samples)%nat
               (count_query choice score t0)).
    + apply IH. intros i' Hi'. apply Hidx. now right.
    + rewrite (bindS_step _ _ pos pos x_new) by (now rewrite Hx).
      rewrite (bindS_step _ _ pos _ score Hscore). reflexivity.
Qed.

(** The script's [totals]: the bee queries fill the first two entries and
    the ant queries the last two. *)
Lemma totals_sums (e : env) (gen : nat -> nat) (n_samples : Z)
  (pos1 pos2 pos3 : nat) (ta tb : tally) :
  predict e gen n_samples 0 (Z.of_nat (length (A_val e))) 0 pos1
  = Ok (ta, pos2) ->
  predict e gen n_samples 0 (Z.of_nat (length (B_val e))) 1 pos2
  = Ok (tb, pos3) ->
  (truepos (add_tally ta tb) + falseneg (add_tally ta tb)
   = Z.of_nat (length (A_val e)))%Z /\
  (falsepos (add_tally ta tb) + trueneg (add_tally ta tb)
   = Z.of_nat (length (B_val e)))%Z.
Proof.
  unfold predict. intros Ha Hb.
  apply predict_loop in Ha, Hb. rewrite zrange_length in Ha, Hb.
  destruct Ha as [Ha _], Hb as [_ Hb].
  specialize (Ha eq_refl). specialize (Hb ltac:(discriminate)).
  destruct ta as [[[a1 a2] a3] a4], tb as [[[b1 b2] b3] b4].
  unfold add_tally, truepos, falseneg, falsepos, trueneg in *.
  cbn [fst snd] in *. lia.
Qed.

(* ================================================================== *)
(** * The cost of a class against itself *)

Lemma demo_shape_y : well_shaped demo_pars demo_y.
Proof.
  unfold well_shaped, demo_pars, demo_y. cbn [fst snd length].
  repeat split; repeat constructor.
Qed.

Lemma demo_inputs_shaped : inputs_shaped demo_pars [demo_x; demo_y].
Proof.
  constructor; [apply demo_shape|]. constructor; [apply demo_shape_y|].
  constructor.
Qed.

Lemma demo_single_shaped : inputs_shaped demo_pars [demo_x].
Proof. constructor; [apply demo_shape | constructor]. Qed.

Lemma demo_cons_nonempty {A : Type} (x : A) (l : list A) : x :: l <> [].
Proof. discriminate. Qed.

Lemma cost_parts (w : matrix * matrix) (A B : list vector) (c : R) :
  cost w A B = Ok c ->
  exists aa bb ab,
    overlaps w A A = Ok aa /\ overlaps w B B = Ok bb /\
    overlaps w A B = Ok ab /\ c = 1 - 0.5 * (-2 * ab + (aa + bb)).
Proof.
  unfold cost. intros H.
  apply bind_Ok in H. destruct H as [aa [Haa H]].
  apply bind_Ok in H. destruct H as [bb [Hbb H]].
  apply bind_Ok in H. destruct H as [ab [Hab H]].
  injection H as <-. exists aa, bb, ab. auto.
Qed.

(** X13: a class compared with itself has cost exactly [1]: the three mean
    overlaps of the cost are then one and the same value, and [d] is [0]. *)
Theorem cost_same_class (weights : matrix * matrix) (A : list vector)
  (c : R) :
  cost weights A A = Ok c -> c = 1.
Proof.
  intros H. apply cost_parts in H.
  destruct H as [aa [bb [ab [Haa [Hbb [Hab ->]]]]]].
  assert (bb = aa) by congruence. assert (ab = aa) by congruence.
  subst. lra.
Qed.

Lemma cost_same_class_witness :
  exists c,
    cost demo_pars [demo_x; demo_y] [demo_x; demo_y] = Ok c /\ c = 1.
Proof.
  destruct (cost_defined demo_pars [demo_x; demo_y] [demo_x; demo_y]
              (demo_cons_nonempty _ _) (demo_cons_nonempty _ _)
              demo_inputs_shaped demo_inputs_shaped) as [c Hc].
  exists c. split; [exact Hc | exact (cost_same_class _ _ _ Hc)].
Defined.

(* ================================================================== *)
(** * Edge cases of the classifier *)


Lemma zrange_cons (lo hi : Z) :
  (lo < hi)%Z -> zrange lo hi = lo :: zrange (lo + 1) hi.
Proof.
  intros H. unfold zrange.
  assert (E : Z.to_nat (hi - lo) = S (Z.to_nat (hi - (lo + 1)))) by lia.
  rewrite E. cbn [seq map]. f_equal; [lia|].
  rewrite <- seq_shift, map_map. apply map_ext. intros k. lia.
Qed.



Lemma lift_inv {A : Type} (m : result A) (pos : nat) (a : A) (pos' : nat) :
  lift m pos = Ok (a, pos') -> m = Ok a /\ pos' = pos.
Proof.
  unfold lift. destruct m as [a'|e]; [|discriminate].
  intros H; injection H as <- <-. auto.
Qed.

Lemma sampling_positions (e : env) (gen : nat -> nat) (x_new : vector)
  (l : list Z) :
  forall (acc r : R) (pos pos' : nat),
    foldS (fun prediction (_ : Z) =>
             sample_index <~ random_choice gen (length (X e)) ;;
             x <~ lift (getitem (X e) sample_index) ;;
             y <~ lift (getitem (Y e) sample_index) ;;
             overlap <~ lift (overlaps (pars e) [x] [x_new]) ;;
             ret (prediction + y * overlap)) l acc pos = Ok (r, pos') ->
    pos' = (pos + length l)%nat.
Proof.
  induction l as [|z l IH]; intros acc r pos pos' H; cbn [foldS] in H.
  - unfold ret in H. injection H as _ <-. cbn [length]. lia.
  - apply bindS_Ok in H. destruct H as [acc1 [pos1 [Hbody Hrest]]].
    apply IH in Hrest. subst pos'.
    apply bindS_Ok in Hbody. destruct Hbody as [si [p1 [Hc Hbody]]].
    apply bindS_Ok in Hbody. destruct Hbody as [x [p2 [Hx Hbody]]].
    apply bindS_Ok in Hbody. destruct Hbody as [y [p3 [Hy Hbody]]].
    apply bindS_Ok in Hbody. destruct Hbody as [o [p4 [Ho Hbody]]].
    apply lift_inv in Hx, Hy, Ho.
    destruct Hx as [_ ->], Hy as [_ ->], Ho as [_ ->].
    unfold ret in Hbody. injection Hbody as _ <-.
    unfold random_choice in Hc.
    destruct (Nat.eqb (length (X e)) 0); [discriminate|].
    injection Hc as _ <-. cbn [length]. lia.
Qed.

Lemma prediction_score_position (e : env) (gen : nat -> nat)
  (n_samples : Z) (x_new : vector) (pos pos' : nat) (s : R) :
  prediction_score e gen n_samples x_new pos = Ok (s, pos') ->
  pos' = (pos + Z.to_nat n_samples)%nat.
Proof.
  unfold prediction_score. intros H.
  apply bindS_Ok in H. destruct H as [acc [p1 [Hloop Hdiv]]].
  apply sampling_positions in Hloop. rewrite zrange_length in Hloop.
  apply lift_inv in Hdiv. destruct Hdiv as [_ ->].
  rewrite Hloop. f_equal. lia.
Qed.

(** X17: a call of [predict] that returns has taken exactly [n_samples] draws
    from the generator for each query of its range. *)
Theorem predict_draws (e : env) (gen : nat -> nat)
  (n_samples pred_low pred_high choice : Z) (pos pos' : nat) (t : tally) :
  predict e gen n_samples pred_low pred_high choice pos = Ok (t, pos') ->
  pos' = (pos + Z.to_nat n_samples * Z.to_nat (pred_high - pred_low))%nat.
Proof.
  unfold predict. rewrite <- zrange_length.
  generalize (0, 0, 0, 0)%Z as t0. revert pos.
  induction (zrange pred_low pred_high) as [|i l IH]; intros pos t0 H;
    cbn [foldS] in H.
  - unfold ret in H. injection H as _ <-. cbn [length]. lia.
  - apply bindS_Ok in H. destruct H as [t1 [pos1 [Hbody Hrest]]].
    apply IH in Hrest. subst pos'.
    apply bindS_Ok in Hbody. destruct Hbody as [x [p1 [Hx Hbody]]].
    apply bindS_Ok in Hbody. destruct Hbody as [s [p2 [Hs Hbody]]].
    apply lift_inv in Hx. destruct Hx as [_ ->].
    apply prediction_score_position in Hs. subst p2.
    unfold ret in Hbody. injection Hbody as _ <-. cbn [length]. lia.
Qed.

Lemma predict_draws_witness :
  predict demo_env (fun _ => 0%nat) 1 0 1 0 0%nat
  = Ok ((1, 0, 0, 0)%Z, 1%nat) /\
  1%nat = (0 + Z.to_nat 1 * Z.to_nat (1 - 0))%nat.
Proof.
  split; [exact demo_predict | exact (predict_draws _ _ _ _ _ _ _ _ _ demo_predict)].
Defined.

Lemma py_index_out {A : Type} (l : list A) (i : Z) :
  (Z.of_nat (length l) <= i \/ i < - Z.of_nat (length l))%Z ->
  py_index l i = Raise IndexError.
Proof.
  intros H. unfold py_index, getitem.
  destruct (Z.leb_spec 0 i).
  - destruct (nth_error l (Z.to_nat i)) eqn:N; [exfalso|reflexivity].
    assert (Hs : nth_error l (Z.to_nat i) <> None) by congruence.
    apply nth_error_Some in Hs. lia.
  - destruct (Z.leb_spec (- Z.of_nat (length l)) i); [lia|reflexivity].
Qed.

(** X18: a range that starts outside the validation set is refused: the first
    query raises [IndexError], whatever the other arguments. *)
Theorem predict_out_of_range (e : env) (gen : nat -> nat)
  (n_samples pred_low pred_high choice : Z) (pos : nat) :
  let val := if (choice =? 0)%Z then A_val e else B_val e in
  (pred_low < pred_high)%Z ->
  (Z.of_nat (length val) <= pred_low \/
   pred_low < - Z.of_nat (length val))%Z ->
  predict e gen n_samples pred_low pred_high choice pos = Raise IndexError.
Proof.
  cbn zeta. intros Hlt Hout. unfold predict.
  rewrite (zrange_cons _ _ Hlt). cbn [foldS].
  unfold bindS at 1. unfold bindS at 1.
  assert (E : (if (choice =? 0)%Z then py_index (A_val e) pred_low
               else py_index (B_val e) pred_low) = Raise IndexError).
  { revert Hout. destruct (choice =? 0)%Z; intros Hout;
      now apply py_index_out. }
  rewrite E. reflexivity.
Qed.

Lemma predict_out_of_range_witness :
  predict demo_env (fun _ => 0%nat) 20 1 3 0 0%nat = Raise IndexError.
Proof.
  apply (predict_out_of_range demo_env (fun _ => 0%nat) 20 1 3 0 0%nat).
  - lia.
  - left. cbn. lia.
Defined.

Lemma py_index_negative {A : Type} (l : list A) (j : Z) :
  (1 <= j <= Z.of_nat (length l))%Z ->
  py_index l (- j) = py_index l (Z.of_nat (length l) - j).
Proof.
  intros H. unfold py_index.
  destruct (Z.leb_spec 0 (- j)); [lia|].
  destruct (Z.leb_spec (- Z.of_nat (length l)) (- j)); [|lia].
  destruct (Z.leb_spec 0 (Z.of_nat (length l) - j)); [|lia].
  f_equal; try lia.
Qed.

Lemma foldS_shifted {T : Type} (f : T -> Z -> rand T) (d : Z) (n : nat) :
  forall (lo : Z) (s : T) (pos : nat),
    (forall k t p, (k < n)%nat ->
       f t (lo + Z.of_nat k)%Z p = f t (lo + d + Z.of_nat k)%Z p) ->
    foldS f (map (fun k => (lo + Z.of_nat k)%Z) (seq 0 n)) s pos =
    foldS f (map (fun k => (lo + d + Z.of_nat k)%Z) (seq 0 n)) s pos.
Proof.
  induction n as [|n IH]; intros lo s pos H; [reflexivity|].
  cbn [seq map foldS]. rewrite <- !seq_shift, !map_map.
  unfold bindS. rewrite (H 0%nat s pos) by lia.
  destruct (f s (lo + d + Z.of_nat 0)%Z pos) as [[s1 p1]|err]; [|reflexivity].
  specialize (IH (lo + 1)%Z s1 p1).
  rewrite (map_ext (fun k => (lo + Z.of_nat (S k))%Z)
             (fun k => (lo + 1 + Z.of_nat k)%Z)) by (intros; lia).
  rewrite (map_ext (fun k => (lo + d + Z.of_nat (S k))%Z)
             (fun k => (lo + 1 + d + Z.of_nat k)%Z)) by (intros; lia).
  apply IH. intros k t p Hk.
  replace (lo + 1 + Z.of_nat k)%Z with (lo + Z.of_nat (S k))%Z by lia.
  replace (lo + 1 + d + Z.of_nat k)%Z with (lo + d + Z.of_nat (S k))%Z by lia.
  apply H. lia.
Qed.

(** X19: negative bounds count from the end of the validation set: the range
    [(-k, 0)] evaluates the last [k] inputs, exactly as the range
    [(len - k, len)] does. *)
Theorem predict_negative_range (e : env) (gen : nat -> nat)
  (n_samples k choice : Z) (pos : nat) :
  let len := Z.of_nat (length (if (choice =? 0)%Z
                               then A_val e else B_val e)) in
  (0 <= k <= len)%Z ->
  predict e gen n_samples (- k) 0 choice pos =
  predict e gen n_samples (len - k) len choice pos.
Proof.
  cbn zeta. intros Hk. unfold predict, zrange.
  replace (0 - - k)%Z with k by lia.
  match goal with
  | |- context [Z.to_nat (?len - (?len - k))] =>
      replace (len - (len - k))%Z with k by lia;
      replace (len - k)%Z with (- k + len)%Z by lia
  end.
  apply foldS_shifted. intros j t p Hj.
  unfold bindS. revert Hk.
  destruct (choice =? 0)%Z; intros Hk.
  - replace (- k + Z.of_nat j)%Z with (- (k - Z.of_nat j))%Z by lia.
    rewrite py_index_negative by lia.
    replace (Z.of_nat (length (A_val e)) - (k - Z.of_nat j))%Z
      with (- k + Z.of_nat (length (A_val e)) + Z.of_nat j)%Z by lia.
    reflexivity.
  - replace (- k + Z.of_nat j)%Z with (- (k - Z.of_nat j))%Z by lia.
    rewrite py_index_negative by lia.
    replace (Z.of_nat (length (B_val e)) - (k - Z.of_nat j))%Z
      with (- k + Z.of_nat (length (B_val e)) + Z.of_nat j)%Z by lia.
    reflexivity.
Qed.

Lemma predict_negative_range_witness :
  predict demo_env (fun _ => 0%nat) 1 (- 1) 0 0 0%nat =
  predict demo_env (fun _ => 0%nat) 1 (1 - 1) 1 0 0%nat.
Proof.
  apply (predict_negative_range demo_env (fun _ => 0%nat) 1 1 0 0%nat).
  cbn. lia.
Defined.

(** X20: with at least one draw per query, a non-empty labelled training pool,
    a range inside the validation set and inputs of the width the
    projection expects, [predict] returns a tally. *)
Theorem predict_returns (e : env) (gen : nat -> nat)
  (n_samples pred_low pred_high choice : Z) (pos : nat) :
  (1 <= n_samples)%Z ->
  length (X e) <> 0%nat -> length (Y e) = length (X e) ->
  inputs_shaped (pars e) (X e) ->
  inputs_shaped (pars e) (if (choice =? 0)%Z then A_val e else B_val e) ->
  (0 <= pred_low)%Z ->
  (pred_high <= Z.of_nat (length (if (choice =? 0)%Z
                                  then A_val e else B_val e)))%Z ->
  exists t pos',
    predict e gen n_samples pred_low pred_high choice pos = Ok (t, pos').
Proof. apply predict_defined. Qed.

Lemma predict_returns_witness :
  exists t pos',
    predict demo_env (fun _ => 0%nat) 20 0 1 1 0%nat = Ok (t, pos').
Proof.
  apply (predict_returns demo_env (fun _ => 0%nat) 20 0 1 1 0%nat).
  - lia.
  - discriminate.
  - reflexivity.
  - exact demo_single_shaped.
  - exact demo_single_shaped.
  - lia.
  - cbn. lia.
Defined.

(** X21: the totals the script prints: when both evaluation calls return, the
    first two entries add up to the number of bee queries and the last two
    to the number of ant queries. *)
Theorem totals_by_class (e : env) (gen : nat -> nat) (n_samples : Z)
  (pos1 pos2 pos3 : nat) (ta tb : tally) :
  predict e gen n_samples 0 (Z.of_nat (length (A_val e))) 0 pos1
  = Ok (ta, pos2) ->
  predict e gen n_samples 0 (Z.of_nat (length (B_val e))) 1 pos2
  = Ok (tb, pos3) ->
  (truepos (add_tally ta tb) + falseneg (add_tally ta tb)
   = Z.of_nat (length (A_val e)))%Z /\
  (falsepos (add_tally ta tb) + trueneg (add_tally ta tb)
   = Z.of_nat (length (B_val e)))%Z.
Proof. apply totals_sums. Qed.

Lemma demo_predict_ants :
  predict demo_env (fun _ => 0%nat) 1 0 1 1 1%nat
  = Ok ((0, 0, 1, 0)%Z, 2%nat).
Proof.
  unfold predict. change (zrange 0 1) with [0%Z]. cbn [foldS].
  assert (Hscore :
    prediction_score demo_env (fun _ => 0%nat) 1 demo_x 1%nat =
    Ok (score_of_draws demo_env (fun _ => 0%nat) 1 1 (fun _ => 1), 2%nat)).
  { apply (prediction_score_value demo_env (fun _ => 0%nat) 1 demo_x 1%nat
             (fun _ => 1)).
    - lia.
    - discriminate.
    - reflexivity.
    - intros. apply demo_draw_overlap. }
  rewrite (bindS_step _ _ 1%nat 2%nat
             (count_query 1
                (score_of_draws demo_env (fun _ => 0%nat) 1 1 (fun _ => 1))
                (0, 0, 0, 0)%Z)).
  - unfold ret. do 2 f_equal. unfold count_query.
    assert (Hs : pred_of (score_of_draws demo_env (fun _ => 0%nat) 1 1
                            (fun _ => 1)) = Bee).
    { apply pred_of_Bee. unfold score_of_draws, drawn_index.
      change (Z.to_nat 1) with 1%nat.
      cbn [seq map Rsum fold_right demo_env X Y length Nat.modulo Nat.divmod
           fst snd Nat.sub nth].
      lra. }
    rewrite Hs. reflexivity.
  - rewrite (bindS_step _ _ 1%nat 1%nat demo_x) by reflexivity.
    rewrite (bindS_step _ _ 1%nat 2%nat _ Hscore).
    reflexivity.
Qed.

Lemma totals_by_class_witness :
  (truepos (add_tally (1, 0, 0, 0)%Z (0, 0, 1, 0)%Z)
   + falseneg (add_tally (1, 0, 0, 0)%Z (0, 0, 1, 0)%Z)
   = Z.of_nat (length (A_val demo_env)))%Z /\
  (falsepos (add_tally (1, 0, 0, 0)%Z (0, 0, 1, 0)%Z)
   + trueneg (add_tally (1, 0, 0, 0)%Z (0, 0, 1, 0)%Z)
   = Z.of_nat (length (B_val demo_env)))%Z.
Proof.
  exact (totals_by_class demo_env (fun _ => 0%nat) 1 0%nat 1%nat 2%nat
           (1, 0, 0, 0)%Z (0, 0, 1, 0)%Z demo_predict demo_predict_ants).
Defined.

(* ================================================================== *)
(** * The metrics of a tally of counts *)

Lemma ratio_unit (a b : Z) :
  (0 <= a <= b)%Z -> (b <> 0)%Z -> 0 <= IZR a / IZR b <= 1.
Proof.
  intros [Ha Hab] Hb.
  assert (Hb' : 0 < IZR b) by (apply IZR_lt; lia).
  assert (Ha' : 0 <= IZR a) by (apply IZR_le; lia).
  assert (Hab' : IZR a <= IZR b) by (apply IZR_le; lia).
  split.
  - apply Rmult_le_pos; [exact Ha'|]. left. now apply Rinv_0_lt_compat.
  - apply (Rmult_le_reg_r (IZR b)); [exact Hb'|].
    unfold Rdiv. rewrite Rmult_assoc, Rinv_l by lra. lra.
Qed.

Lemma ratio_zero (a b : Z) :
  (b <> 0)%Z -> IZR a / IZR b = 0 -> a = 0%Z.
Proof.
  intros Hb H. apply eq_IZR_R0.
  assert (Hb' : IZR b <> 0) by (now apply not_0_IZR).
  apply (Rmult_eq_reg_r (/ IZR b)); [|now apply Rinv_neq_0_compat].
  unfold Rdiv in H. rewrite H. ring.
Qed.

(** X22: on a tally of counts the metrics are undefined exactly when there is no
    true positive or no query of the negative class: these are the tallies
    on which the computation raises [ZeroDivisionError]. *)
Theorem derived_metrics_undefined_iff (totals : tally) :
  (0 <= truepos totals)%Z -> (0 <= falseneg totals)%Z ->
  (0 <= falsepos totals)%Z -> (0 <= trueneg totals)%Z ->
  (derived_metrics totals = Raise ZeroDivisionError <->
   truepos totals = 0%Z \/ (trueneg totals + falsepos totals = 0)%Z).
Proof.
  destruct totals as [[[tp fn] fp] tn].
  unfold derived_metrics, int_div, float_div, truepos, falseneg, falsepos,
    trueneg. cbn [fst snd]. intros Htp Hfn Hfp Htn.
  destruct (Z.eqb_spec (tp + fp) 0) as [E1|E1]; cbn [bind].
  { split; [intros _; left; lia | reflexivity]. }
  destruct (Z.eqb_spec (tp + fn) 0) as [E2|E2]; cbn [bind].
  { split; [intros _; left; lia | reflexivity]. }
  destruct (Z.eqb_spec (tp + fn + fp + tn) 0) as [E3|E3]; cbn [bind].
  { split; [intros _; left; lia | reflexivity]. }
  destruct (Z.eqb_spec (tn + fp) 0) as [E4|E4]; cbn [bind].
  { split; [intros _; right; lia | reflexivity]. }
  destruct (Req_dec_T (IZR tp / IZR (tp + fp) + IZR tp / IZR (tp + fn)) 0)
    as [E5|E5]; cbn [bind].
  - split; [intros _; left | reflexivity].
    pose proof (ratio_unit tp (tp + fp) ltac:(lia) E1) as [P _].
    pose proof (ratio_unit tp (tp + fn) ltac:(lia) E2) as [Q _].
    apply (ratio_zero tp (tp + fp) E1). lra.
  - split; [discriminate|]. intros [H|H]; [|lia].
    exfalso. apply E5. subst tp. unfold Rdiv. ring.
Qed.

Lemma derived_metrics_undefined_iff_witness :
  derived_metrics (0, 3, 2, 5)%Z = Raise ZeroDivisionError <->
  truepos (0, 3, 2, 5)%Z = 0%Z \/
  (trueneg (0, 3, 2, 5)%Z + falsepos (0, 3, 2, 5)%Z = 0)%Z.
Proof.
  apply (derived_metrics_undefined_iff (0, 3, 2, 5)%Z);
    cbn [truepos falseneg falsepos trueneg fst snd]; lia.
Defined.

(** X23: on a tally of counts every metric the computation returns lies in
    [[0, 1]]. *)
Theorem derived_metrics_unit_interval (totals : tally) (m : metrics) :
  (0 <= truepos totals)%Z -> (0 <= falseneg totals)%Z ->
  (0 <= falsepos totals)%Z -> (0 <= trueneg totals)%Z ->
  derived_metrics totals = Ok m ->
  0 <= precision m <= 1 /\ 0 <= recall m <= 1 /\ 0 <= accuracy m <= 1 /\
  0 <= specificity m <= 1 /\ 0 <= f1 m <= 1.
Proof.
  destruct totals as [[[tp fn] fp] tn].
  unfold derived_metrics, int_div, float_div, truepos, falseneg, falsepos,
    trueneg. cbn [fst snd]. intros Htp Hfn Hfp Htn.
  destruct (Z.eqb_spec (tp + fp) 0) as [E1|E1]; cbn [bind]; [discriminate|].
  destruct (Z.eqb_spec (tp + fn) 0) as [E2|E2]; cbn [bind]; [discriminate|].
  destruct (Z.eqb_spec (tp + fn + fp + tn) 0) as [E3|E3]; cbn [bind];
    [discriminate|].
  destruct (Z.eqb_spec (tn + fp) 0) as [E4|E4]; cbn [bind]; [discriminate|].
  destruct (Req_dec_T (IZR tp / IZR (tp + fp) + IZR tp / IZR (tp + fn)) 0)
    as [E5|E5]; cbn [bind]; [discriminate|].
  intros H; injection H as <-. cbn [precision recall accuracy specificity f1].
  pose proof (ratio_unit tp (tp + fp) ltac:(lia) E1) as P.
  pose proof (ratio_unit tp (tp + fn) ltac:(lia) E2) as Q.
  pose proof (ratio_unit (tp + tn) (tp + fn + fp + tn) ltac:(lia) E3) as A.
  pose proof (ratio_unit tn (tn + fp) ltac:(lia) E4) as S.
  repeat split; try tauto.
  - set (p := IZR tp / IZR (tp + fp)) in *.
    set (r := IZR tp / IZR (tp + fn)) in *.
    assert (Hs : 0 < p + r) by lra.
    apply Rmult_le_pos; [nra|]. left. now apply Rinv_0_lt_compat.
  - set (p := IZR tp / IZR (tp + fp)) in *.
    set (r := IZR tp / IZR (tp + fn)) in *.
    assert (Hs : 0 < p + r) by lra.
    apply (Rmult_le_reg_r (p + r)); [exact Hs|].
    unfold Rdiv. rewrite Rmult_assoc, Rinv_l by lra. nra.
Qed.

Lemma demo_metrics :
  exists m, derived_metrics (42, 40, 43, 34)%Z = Ok m.
Proof.
  unfold derived_metrics, int_div, float_div, truepos, falseneg, falsepos,
    trueneg. cbn [fst snd Z.add Z.eqb Pos.add Pos.succ Pos.add_carry bind].
  destruct (Req_dec_T (IZR 42 / IZR 85 + IZR 42 / IZR 82) 0) as [E|E];
    [exfalso; lra|].
  cbn [bind]. eauto.
Qed.

Lemma derived_metrics_unit_interval_witness :
  exists m,
    derived_metrics (42, 40, 43, 34)%Z = Ok m /\
    0 <= precision m <= 1 /\ 0 <= f1 m <= 1.
Proof.
  destruct demo_metrics as [m Hm]. exists m. split; [exact Hm|].
  destruct (derived_metrics_unit_interval (42, 40, 43, 34)%Z m)
    as [P [_ [_ [_ F]]]];
    cbn [truepos falseneg falsepos trueneg fst snd]; try lia;
    [exact Hm | split; assumption].
Defined.

(* ================================================================== *)
(** * The feature map on any wires *)

Lemma feature_encoding_from (features : vector) (ws : list nat) :
  forall k,
    (k <= length features)%nat ->
    mapM (fun iw => f <- getitem features (fst iw) ;; Ok (RX f (snd iw)))
         (combine (seq k (length ws)) ws) =
    if (k + length ws <=? length features)%nat
    then Ok (map (fun iw => RX (nth (fst iw) features 0) (snd iw))
                 (combine (seq k (length ws)) ws))
    else Raise IndexError.
Proof.
  induction ws as [|w ws IH]; intros k Hk.
  - cbn [length seq combine mapM map].
    destruct (Nat.leb_spec (k + 0) (length features)); [reflexivity|lia].
  - cbn [length seq combine mapM map fst snd].
    destruct (Nat.eq_dec k (length features)) as [E|E].
    + unfold getitem.
      assert (N : nth_error features k = None)
        by (apply nth_error_None; lia).
      rewrite N. cbn [bind].
      destruct (Nat.leb_spec (k + S (length ws)) (length features));
        [lia|reflexivity].
    + rewrite (getitem_nth features k 0) by lia. cbn [bind].
      rewrite IH by lia.
      replace (k + S (length ws))%nat with (S k + length ws)%nat by lia.
      destruct (S k + length ws <=? length features)%nat; reflexivity.
Qed.

(** X1: the feature encoding queues one [RX] per wire, in order, with the
    feature of the wire's position as angle; it raises [IndexError] when
    there are more wires than features. *)
Theorem feature_encoding_result (features : vector) (wires : list nat) :
  feature_encoding_hamiltonian features wires =
  if (length wires <=? length features)%nat
  then Ok (map (fun iw => RX (nth (fst iw) features 0) (snd iw))
               (enumerate wires))
  else Raise IndexError.
Proof.
  unfold feature_encoding_hamiltonian, enumerate.
  rewrite (feature_encoding_from features wires 0) by lia.
  reflexivity.
Qed.

Lemma features2_spec (f : vector) :
  (exists a, features2 f = Some a) <-> (2 <= length f)%nat.
Proof.
  destruct f as [|f0 [|f1 t]]; cbn [features2 length]; split;
    try (intros [a H]; discriminate); try lia; eauto.
Qed.

Lemma rows3_spec (q : matrix) :
  (exists rows, rows3 q = Some rows) <->
  Forall (fun row => (3 <= length row)%nat) q.
Proof.
  induction q as [|row q IH]; cbn [rows3].
  - split; [constructor | eauto].
  - destruct row as [|j [|h0 [|h1 t]]]; cbn [row3].
    + split; [intros [? H]; discriminate|].
      intros H. inversion H as [|? ? Hr _]. cbn [length] in Hr. lia.
    + split; [intros [? H]; discriminate|].
      intros H. inversion H as [|? ? Hr _]. cbn [length] in Hr. lia.
    + split; [intros [? H]; discriminate|].
      intros H. inversion H as [|? ? Hr _]. cbn [length] in Hr. lia.
    + destruct (rows3 q) as [rows|].
      * split; [|eauto]. intros _. constructor; [cbn [length]; lia|].
        apply IH. eauto.
      * split; [intros [? H]; discriminate|].
        intros H. inversion H as [|? ? _ Hq]. apply IH in Hq.
        destruct Hq as [? Hq]. discriminate.
Qed.

(** X2: on two distinct wires the embedding reads two features and three
    weights per layer: it returns its operations when they exist (further
    features and weights are ignored) and raises [IndexError] otherwise. *)
Theorem QAOAEmbedding_requirements (features : vector) (weights : matrix)
  (p r : nat) :
  p <> r ->
  ((2 <= length features)%nat /\
   Forall (fun row => (3 <= length row)%nat) weights ->
   exists ops, QAOAEmbedding features weights [p; r] = Ok ops) /\
  (~ ((2 <= length features)%nat /\
      Forall (fun row => (3 <= length row)%nat) weights) ->
   QAOAEmbedding features weights [p; r] = Raise IndexError).
Proof.
  intros Hpr. rewrite (QAOAEmbedding_pair _ _ _ _ Hpr).
  pose proof (features2_spec features) as Hf.
  pose proof (rows3_spec weights) as Hq.
  destruct (features2 features) as [[f0 f1]|],
    (rows3 weights) as [rows|]; split; intros H; eauto;
    try reflexivity.
  - exfalso. apply H. split; [apply Hf | apply Hq]; eauto.
  - destruct H as [_ H]. apply Hq in H. destruct H; discriminate.
  - destruct H as [H _]. apply Hf in H. destruct H; discriminate.
  - destruct H as [H _]. apply Hf in H. destruct H; discriminate.
Qed.

Lemma QAOAEmbedding_requirements_witness :
  (exists ops, QAOAEmbedding [1; 2; 3] (snd demo_pars) [1; 2]%nat = Ok ops) /\
  QAOAEmbedding [1] (snd demo_pars) [1; 2]%nat = Raise IndexError.
Proof.
  split.
  - apply (QAOAEmbedding_requirements [1; 2; 3] (snd demo_pars) 1 2);
      [discriminate|].
    split; [cbn [length]; lia|]. repeat constructor.
  - apply (QAOAEmbedding_requirements [1] (snd demo_pars) 1 2);
      [discriminate|].
    intros [H _]. cbn [length] in H. lia.
Defined.

Lemma coupling_phase_witness :
  run (coupling 1 0 1) (zero_state 2) [false; false] =
  Cmul (zz_phase 1 (xorb (get_bit [false; false] 0) (get_bit [false; false] 1)))
       (zero_state 2 [false; false]).
Proof.
  apply coupling_phase; [discriminate | cbn [length]; lia].
Defined.


(* ================================================================== *)
(** * What the overlap evaluator raises *)

Lemma pair_overlap_error (w : matrix * matrix) (a b : vector) (e : exn) :
  pair_overlap w a b = Raise e -> e = ValueError \/ e = IndexError.
Proof.
  unfold pair_overlap.
  destruct (matvec (fst w) a) as [wa|ea] eqn:Ha; cbn [bind].
  - destruct (matvec (fst w) b) as [wb|eb] eqn:Hb; cbn [bind].
    + rewrite swap_test_value.
      destruct (features2 wa), (features2 wb), (rows3 (snd w));
        intros H; try discriminate; injection H as <-; auto.
    + intros H; injection H as <-. left. eapply matvec_error; eauto.
  - intros H; injection H as <-. left. eapply matvec_error; eauto.
Qed.

Lemma foldM_Raise {A T : Type} (f : T -> A -> result T) (l : list A) :
  forall (s : T) (e : exn),
    foldM f l s = Raise e -> exists s' x, In x l /\ f s' x = Raise e.
Proof.
  induction l as [|x l IH]; intros s e H; cbn [foldM] in H; [discriminate|].
  destruct (f s x) as [s1|e1] eqn:Hx; cbn [bind] in H.
  - destruct (IH _ _ H) as [s' [y [Hy Hf]]]. exists s', y. split; auto.
    now right.
  - injection H as <-. exists s, x. split; auto. now left.
Qed.

(** X6: the overlap evaluator raises [ZeroDivisionError] only for an empty set;
    on non-empty sets it raises nothing but the [ValueError] of a
    projection of the wrong width and the [IndexError] of a missing
    feature or weight. *)
Theorem overlaps_errors (weights : matrix * matrix) (X1 X2 : list vector)
  (e : exn) :
  overlaps weights X1 X2 = Raise e ->
  (e = ZeroDivisionError /\ (X1 = [] \/ X2 = [])) \/
  ((e = ValueError \/ e = IndexError) /\ X1 <> [] /\ X2 <> []).
Proof.
  unfold overlaps.
  destruct (foldM _ X1 0) as [total|e'] eqn:Hfold; cbn [bind].
  - unfold true_div.
    destruct (Z.eqb_spec (Z.of_nat (length X1) * Z.of_nat (length X2)) 0)
      as [E|E]; [|discriminate].
    intros H; injection H as <-. left. split; [reflexivity|].
    destruct X1; [now left|]. destruct X2; [now right|].
    cbn [length] in E. lia.
  - intros H; injection H as <-. right.
    apply foldM_Raise in Hfold. destruct Hfold as [s1 [x1 [Hx1 Hin]]].
    apply foldM_Raise in Hin. destruct Hin as [s2 [x2 [Hx2 Hb]]].
    destruct (pair_overlap weights x1 x2) as [v|e''] eqn:Hp; cbn [bind] in Hb;
      [discriminate|].
    injection Hb as <-. split; [now apply (pair_overlap_error _ _ _ _ Hp)|].
    split; intros ->; contradiction.
Qed.

Lemma demo_width_mismatch :
  overlaps demo_pars [[1]] [[1]] = Raise ValueError.
Proof. reflexivity. Qed.

Lemma overlaps_errors_witness :
  (ValueError = ZeroDivisionError /\ ([[1]] = [] \/ [[1]] = [])) \/
  ((ValueError = ValueError \/ ValueError = IndexError) /\
   [[1]] <> [] /\ [[1]] <> ([] : list vector)).
Proof.
  exact (overlaps_errors demo_pars [[1]] [[1]] ValueError
           demo_width_mismatch).
Defined.

(** X7: on non-empty sets of inputs of the width the projection expects, the
    mean overlap is returned. *)
Theorem overlaps_returns (weights : matrix * matrix) (X1 X2 : list vector) :
  X1 <> [] -> X2 <> [] ->
  inputs_shaped weights X1 -> inputs_shaped weights X2 ->
  exists v, overlaps weights X1 X2 = Ok v.
Proof. apply overlaps_defined. Qed.

Lemma overlaps_returns_witness :
  exists v, overlaps demo_pars [demo_x; demo_y] [demo_x] = Ok v.
Proof.
  exact (overlaps_returns demo_pars [demo_x; demo_y] [demo_x]
           (demo_cons_nonempty _ _) (demo_cons_nonempty _ _)
           demo_inputs_shaped demo_single_shaped).
Defined.

(** X14: on non-empty batches of inputs of the width the projection expects, the
    cost is returned. *)
Theorem cost_returns (weights : matrix * matrix) (A B : list vector) :
  A <> [] -> B <> [] ->
  inputs_shaped weights A -> inputs_shaped weights B ->
  exists c, cost weights A B = Ok c.
Proof. apply cost_defined. Qed.

Lemma cost_returns_witness :
  exists c, cost demo_pars [demo_x; demo_y] [demo_x] = Ok c.
Proof.
  exact (cost_returns demo_pars [demo_x; demo_y] [demo_x]
           (demo_cons_nonempty _ _) (demo_cons_nonempty _ _)
           demo_inputs_shaped demo_single_shaped).
Defined.
